(** * gradunwarp.core.utils: a shallow embedding and its specification

    The module [gradunwarp/core/utils.py] supplies an affine coordinate
    transform, an N-dimensional grid generator, a memoization wrapper and a
    recursive evaluator of associated Legendre polynomials.

    Conventions of the embedding:
    - Python integers are [Z]; Python floats are idealised as the real
      numbers [R] (no rounding, no overflow);
    - a call that may raise returns a [result]; the exceptions are the ones
      the Python code raises, named as Python names them;
    - the process-wide cache of a [Memoize] object is explicit state that is
      threaded through every function that calls the wrapper;
    - numpy arrays are a shape together with the elements in row-major
      order; the numpy functions the module calls are modelled next to the
      code that uses them. *)

From Stdlib Require Import ZArith List Lia Reals Lra String.
From stdpp Require Import gmap.
From Equations Require Import Equations.

(** ** Outcomes of a Python call *)

Inductive exception : Type :=
| ValueError (msg : string)
| TypeError (msg : string)
| IndexError (msg : string)
| KeyError
| ZeroDivisionError
| UnboundLocalError (name : string).

Inductive result (A : Type) : Type :=
| Ok (a : A)
| Raise (e : exception).
Arguments Ok {A} a.
Arguments Raise {A} e.

(** The error taxonomy of the specification, as the exceptions of the code:
    both Legendre errors are [ValueError]s that differ in their message (the
    format string is kept, the formatted numbers are not), and the grid
    generator's error is a [TypeError]. *)
Definition InvalidOrder : exception :=
  ValueError "require 0 <= mu <= nu, but mu=%d and nu=%d".
Definition InvalidArgument : exception :=
  ValueError "require -1 <= x <= 1, but x=%f".
Definition EmptyArguments : exception :=
  TypeError "meshgrid() take 1 or more arguments (0 given)".

Definition result_bind {A B} (c : result A) (k : A -> result B) : result B :=
  match c with
  | Ok a => k a
  | Raise e => Raise e
  end.

#[global] Instance result_ret : MRet result := fun _ a => Ok a.
#[global] Instance result_mbind : MBind result := fun _ _ k c => result_bind c k.
#[global] Instance result_fmap : FMap result :=
  fun _ _ g c => result_bind c (fun a => Ok (g a)).

(** ** numpy arrays *)

(** The element type of an array: a numeric dtype with its zero, its one,
    addition and multiplication; multiplying by one changes nothing. *)
Class Numeric (A : Type) : Type := {
  num_zero : A;
  num_one : A;
  num_add : A -> A -> A;
  num_mul : A -> A -> A;
  num_mul_one : forall a, num_mul a num_one = a
}.

#[global] Instance Z_Numeric : Numeric Z :=
  {| num_zero := 0%Z; num_one := 1%Z; num_add := Z.add; num_mul := Z.mul;
     num_mul_one := Z.mul_1_r |}.


(** An array: its shape and its elements in row-major (C) order. *)
Record ndarray (A : Type) : Type := mkArray {
  shape : list nat;
  data : list A
}.
Arguments mkArray {A} shape data.
Arguments shape {A} _.
Arguments data {A} _.

(** The number of elements a shape holds. *)
Definition prod (s : list nat) : nat := fold_right Nat.mul 1 s.

(** [a.size] and [a.ndim]. *)
Definition size {A} (a : ndarray A) : nat := prod (shape a).
Definition ndim {A} (a : ndarray A) : nat := length (shape a).

(** An array holds as many elements as its shape says. *)
Definition well_formed {A} (a : ndarray A) : Prop := length (data a) = size a.

(** The multi-index of the [j]-th element of shape [s], and back. *)
Fixpoint unravel (s : list nat) (j : nat) : list nat :=
  match s with
  | [] => []
  | _ :: s' => j / prod s' :: unravel s' (j mod prod s')
  end.

Fixpoint ravel (s idx : list nat) : nat :=
  match s, idx with
  | _ :: s', i :: idx' => i * prod s' + ravel s' idx'
  | _, _ => 0
  end.

(** A multi-index of shape [s]. *)
Definition valid_index (s idx : list nat) : Prop := Forall2 lt idx s.

(** *** Broadcasting *)

(** Shapes are aligned at their last axis: the shorter one is padded with
    ones in front. *)
Definition pad_shape (n : nat) (s : list nat) : list nat :=
  replicate (n - length s) 1 ++ s.

Definition broadcast_error : exception :=
  ValueError "shape mismatch: objects cannot be broadcast to a single shape".

(** Two aligned axes are compatible when they are equal or one of them is 1. *)
Definition broadcast_dim (d e : nat) : result nat :=
  if d =? e then Ok d
  else if d =? 1 then Ok e
  else if e =? 1 then Ok d
  else Raise broadcast_error.

Fixpoint broadcast_dims (s t : list nat) : result (list nat) :=
  match s, t with
  | d :: s', e :: t' =>
      r ← broadcast_dim d e; rs ← broadcast_dims s' t'; mret (r :: rs)
  | _, _ => mret []
  end.

(** The shape two arrays broadcast to. *)
Definition broadcast_shapes (s t : list nat) : result (list nat) :=
  let n := length s `max` length t in
  broadcast_dims (pad_shape n s) (pad_shape n t).

(** The shape a list of arrays broadcasts to (the 0-d shape for no array). *)
Fixpoint broadcast_shapes_list (l : list (list nat)) : result (list nat) :=
  match l with
  | [] => mret []
  | s :: l' => t ← broadcast_shapes_list l'; broadcast_shapes s t
  end.

(** An axis of extent 1 is read at index 0 whatever the index asked for. *)
Definition broadcast_index (t idx : list nat) : list nat :=
  zip_with (fun d i => if d =? 1 then 0 else i) t idx.

(** [t] can be stretched to [s]: same length, every axis equal or 1. *)
Definition stretches (t s : list nat) : bool :=
  (length t =? length s) && forallb (fun '(d, e) => (d =? e) || (d =? 1)) (zip t s).

Section Arrays.
Context {A : Type} `{Numeric A}.

(** The element at a multi-index. *)
Definition get (a : ndarray A) (idx : list nat) : A :=
  nth (ravel (shape a) idx) (data a) num_zero.

(** [np.broadcast_to(a, s)], materialised. *)
Definition broadcast_to (a : ndarray A) (s : list nat) : result (ndarray A) :=
  let t := pad_shape (length s) (shape a) in
  if stretches t s then
    Ok (mkArray s
          ((fun j => nth (ravel t (broadcast_index t (unravel s j)))
                       (data a) num_zero)
             <$> seq 0 (prod s)))
  else Raise broadcast_error.

(** An element-wise binary operation on two arrays, with broadcasting. *)
Definition elementwise (op : A -> A -> A) (a b : ndarray A)
  : result (ndarray A) :=
  s ← broadcast_shapes (shape a) (shape b);
  a' ← broadcast_to a s;
  b' ← broadcast_to b s;
  mret (mkArray s (zip_with op (data a') (data b'))).

(** [a * b] and [a + b] on arrays. *)
Definition multiply : ndarray A -> ndarray A -> result (ndarray A) :=
  elementwise num_mul.
Definition add : ndarray A -> ndarray A -> result (ndarray A) :=
  elementwise num_add.

(** A scalar as an operand of array arithmetic: a 0-d array. *)
Definition scalar (v : A) : ndarray A := mkArray [] [v].

(** [np.ones(s, dtype=int)]. *)
Definition ones (s : list nat) : ndarray A :=
  mkArray s (replicate (prod s) num_one).

(** [a.copy()]: a new array with the same shape and elements.  Arrays are
    values here, so a copy and a view of an array are the same value. *)
Definition array_copy (a : ndarray A) : ndarray A := a.

(** [np.broadcast_arrays( *l )]. *)
Definition broadcast_arrays (l : list (ndarray A)) : result (list (ndarray A)) :=
  s ← broadcast_shapes_list (shape <$> l);
  mapM (fun a => broadcast_to a s) l.

(** A list with its first two entries exchanged; a shorter list is kept. *)
Definition swap01 {X} (l : list X) : list X :=
  match l with
  | a :: b :: r => b :: a :: r
  | _ => l
  end.

(** [np.swapaxes(a, 0, 1)], materialised: the element at [(i0, i1, ...)] of
    the result is the element at [(i1, i0, ...)] of [a]. *)
Definition swapaxes01 (a : ndarray A) : ndarray A :=
  let s := swap01 (shape a) in
  mkArray s ((fun j => get a (swap01 (unravel s j))) <$> seq 0 (prod s)).
End Arrays.

(** *** Reshaping *)

Definition reshape_error : exception :=
  ValueError "total size of new array must be unchanged".

(** The shape a reshape to [newshape] gives an array of [n] elements: one
    entry may be [-1], and is then inferred from [n] and the other entries. *)
Definition resolve_shape (n : nat) (newshape : list Z) : result (list nat) :=
  let known := prod (Z.to_nat <$> filter (fun d => d <> (-1)%Z) newshape) in
  let unknown := length (filter (fun d => d = (-1)%Z) newshape) in
  if existsb (fun d => (d <? -1)%Z) newshape
  then Raise (ValueError "negative dimensions not allowed")
  else
    match unknown with
    | 0 => if known =? n then Ok (Z.to_nat <$> newshape) else Raise reshape_error
    | 1 =>
        if (known =? 0) || negb (n mod known =? 0) then Raise reshape_error
        else Ok ((fun d => if (d =? -1)%Z then n / known else Z.to_nat d) <$> newshape)
    | _ => Raise (ValueError "can only specify one unknown dimension")
    end.

(** [a.reshape(newshape)]; the assignment [a.shape = newshape] changes the
    array in the same way. *)
Definition reshape {A} (a : ndarray A) (newshape : list Z) : result (ndarray A) :=
  s ← resolve_shape (size a) newshape; mret (mkArray s (data a)).

(** An array, or a list of arrays: what [np.atleast_1d] and [meshgrid]
    return. *)
Inductive arrays (A : Type) : Type :=
| Array (a : ndarray A)
| Arrays (l : list (ndarray A)).
Arguments Array {A} a.
Arguments Arrays {A} l.

(** [np.atleast_1d( *arys )] as numpy 1.x defines it, the numpy whose list
    result [meshgrid] tests for: every input is converted ([res.append]), a
    0-d input to a 1-d array of one element and any other input to itself;
    then [if len(res) == 1: return res[0]] and [else: return res].  So one
    input gives the array itself, and any other number of inputs, none
    included, gives a list. *)
Definition promote_1d {A} (ary : ndarray A) : ndarray A :=
  if ndim ary =? 0 then mkArray [1] (data ary) else ary.

Definition atleast_1d {A} (arys : list (ndarray A)) : arrays A :=
  let res := promote_1d <$> arys in
  match res with
  | [a] => Array a
  | _ => Arrays res
  end.

(** [l[i]] on a Python list. *)
Definition list_getitem {X} (l : list X) (i : nat) : result X :=
  match l !! i with
  | Some v => Ok v
  | None => Raise (IndexError "list index out of range")
  end.

(** ** The coordinate transform *)

(** [CoordsVector = namedtuple('CoordsVector', 'x, y, z')]. *)
Record CoordsVector (A : Type) : Type := mkCoordsVector {
  x : ndarray A;
  y : ndarray A;
  z : ndarray A
}.
Arguments mkCoordsVector {A} x y z.
Arguments x {A} _.
Arguments y {A} _.
Arguments z {A} _.

Section Transform.
Context {E : Type} `{Numeric E}.

(** [M[i, j]] on a two-dimensional array. *)
Definition getitem2 (M : ndarray E) (i j : nat) : result E :=
  match shape M with
  | [rows; cols] =>
      if (i <? rows) && (j <? cols) then
        match data M !! (i * cols + j) with
        | Some v => Ok v
        | None => Raise (IndexError "index out of bounds")
        end
      else Raise (IndexError "index out of bounds")
  | _ => Raise (IndexError "invalid index")
  end.

(** One line of the body:
    [A1 * M[i, 0] + A2 * M[i, 1] + A3 * M[i, 2] + M[i, 3]], evaluated from
    left to right. *)
Definition affine_row (A1 A2 A3 M : ndarray E) (i : nat) : result (ndarray E) :=
  m0 ← getitem2 M i 0; t0 ← multiply A1 (scalar m0);
  m1 ← getitem2 M i 1; t1 ← multiply A2 (scalar m1);
  s1 ← add t0 t1;
  m2 ← getitem2 M i 2; t2 ← multiply A3 (scalar m2);
  s2 ← add s1 t2;
  m3 ← getitem2 M i 3;
  add s2 (scalar m3).

(** [def transform_coordinates(A, M)]. *)
Definition transform_coordinates (A : CoordsVector E) (M : ndarray E)
  : result (CoordsVector E) :=
  let A1 := x A in
  let A2 := y A in
  let A3 := z A in
  B1 ← affine_row A1 A2 A3 M 0;
  B2 ← affine_row A1 A2 A3 M 1;
  B3 ← affine_row A1 A2 A3 M 2;
  mret (mkCoordsVector B1 B2 B3).

(** A 4x4 matrix and its entry in row [i], column [j]. *)
Definition matrix4x4 (M : ndarray E) : Prop :=
  shape M = [4; 4] /\ length (data M) = 16.
Definition entry (M : ndarray E) (i j : nat) : E :=
  nth (i * 4 + j) (data M) num_zero.

(** The three arrays of a [CoordsVector], by axis number. *)
Definition axis (B : CoordsVector E) (i : nat) : ndarray E :=
  match i with
  | 0 => x B
  | 1 => y B
  | _ => z B
  end.

(** The contract of the transform at position [p] of axis [i]:
    [A.x*M[i,0] + A.y*M[i,1] + A.z*M[i,2] + M[i,3]]. *)
Definition spec_affine_at (A : CoordsVector E) (M : ndarray E) (i p : nat) : E :=
  num_add
    (num_add
       (num_add (num_mul (nth p (data (x A)) num_zero) (entry M i 0))
                (num_mul (nth p (data (y A)) num_zero) (entry M i 1)))
       (num_mul (nth p (data (z A)) num_zero) (entry M i 2)))
    (entry M i 3).
End Transform.

(** A sample point set and two sample matrices that differ in their last
    row only. *)
Definition sample_coords : CoordsVector Z :=
  mkCoordsVector (mkArray [2] [1; 2]%Z) (mkArray [2] [3; 4]%Z) (mkArray [2] [5; 6]%Z).
Definition sample_matrix : ndarray Z :=
  mkArray [4; 4] [1; 0; 0; 10; 0; 2; 0; 20; 0; 0; 3; 30; 0; 0; 0; 1]%Z.
Definition sample_matrix_other_last_row : ndarray Z :=
  mkArray [4; 4] [1; 0; 0; 10; 0; 2; 0; 20; 0; 0; 3; 30; 7; 8; 9; 11]%Z.

(** ** The memoization wrapper *)

Section Memoize.
Context {K : Type} `{Countable K} {V : Type}.

(** [class Memoize]: the wrapped function [f] and the dictionary [memo],
    keyed by the argument tuple.  [evals] is ghost state: the argument
    tuples at which [self.f] was evaluated, most recent first.  The
    wrapped function is a pure, total function of its argument tuple, and
    two argument tuples are the same dictionary key when they are equal. *)
Record Memoize : Type := mkMemoize {
  f : K -> V;
  memo : gmap K V;
  evals : list K
}.

(** [__init__]: [self.f = f; self.memo = {}]. *)
Definition Memoize_init (g : K -> V) : Memoize :=
  {| f := g; memo := ∅; evals := [] |}.

(** [__call__(self, *args)]:
    [if not args in self.memo: self.memo[args] = self.f( *args )]
    followed by [return self.memo[args]], a dictionary lookup that raises
    [KeyError] on a missing key. *)
Definition Memoize_call (self : Memoize) (args : K) : result V * Memoize :=
  let self' :=
    match memo self !! args with
    | None =>
        {| f := f self;
           memo := <[args := f self args]> (memo self);
           evals := args :: evals self |}
    | Some _ => self
    end in
  (match memo self' !! args with
   | Some v => Ok v
   | None => Raise KeyError
   end, self').

(** A sequence of calls on one wrapper, oldest first, with every result. *)
Fixpoint Memoize_calls (self : Memoize) (l : list K)
  : list (result V) * Memoize :=
  match l with
  | [] => ([], self)
  | a :: l' =>
      let '(r, self') := Memoize_call self a in
      let '(rs, self'') := Memoize_calls self' l' in
      (r :: rs, self'')
  end.

(** What every state of a wrapper of [g] satisfies: the cache holds values
    of [g] only, at exactly the arguments [g] was evaluated at, and no
    argument was evaluated twice. *)
Record Memoize_inv (g : K -> V) (self : Memoize) : Prop := {
  inv_f : f self = g;
  inv_memo : forall k v, memo self !! k = Some v -> v = g k;
  inv_evals : forall k, k ∈ evals self <-> is_Some (memo self !! k);
  inv_nodup : NoDup (evals self)
}.
End Memoize.
Arguments Memoize K {_ _} V.

(** ** The grid generator *)

(** The keyword arguments of [meshgrid]: a key that was not passed is
    [None], and [kwargs.get(key, default)] reads it. *)
Record kwargs : Type := mkKwargs {
  kw_indexing : option string;
  kw_sparse : option bool;
  kw_copy : option bool
}.

(** A call with no keyword argument. *)
Definition no_kwargs : kwargs :=
  {| kw_indexing := None; kw_sparse := None; kw_copy := None |}.

Section Meshgrid.
Context {A : Type} `{Numeric A}.

(** [[x.reshape(s0[:i] + (-1,) + s0[i + 1::]) for i, x in enumerate(args)]]. *)
Definition meshgrid_reshape (s0 : list Z) (args : list (ndarray A))
  : result (list (ndarray A)) :=
  mapM (fun '(i, a) => reshape a (take i s0 ++ [(-1)%Z] ++ drop (S i) s0))
       (zip (seq 0 (length args)) args).

(** The branch [if indexing == 'xy']: the first two arrays are reshaped in
    place and the first two entries of [shape] are exchanged. *)
Definition meshgrid_xy (ndim : nat) (output : list (ndarray A)) (shape : list nat)
  : result (list (ndarray A) * list nat) :=
  o0 ← list_getitem output 0;
  o0 ← reshape o0 ([1; -1]%Z ++ replicate (ndim - 2) 1%Z);
  let output := <[0 := o0]> output in
  o1 ← list_getitem output 1;
  o1 ← reshape o1 ([-1; 1]%Z ++ replicate (ndim - 2) 1%Z);
  let output := <[1 := o1]> output in
  s1 ← list_getitem shape 1;
  s0 ← list_getitem shape 0;
  let shape := <[0 := s1]> shape in
  let shape := <[1 := s0]> shape in
  mret (output, shape).

(** [def meshgrid( *xi, **kwargs )]. *)
Definition meshgrid (xi : list (ndarray A)) (kw : kwargs) : result (arrays A) :=
  let copy := default true (kw_copy kw) in
  match atleast_1d xi with
  | Array args =>
      if 0 <? size args
      then Ok (Array (if copy then array_copy args else args))
      else Raise EmptyArguments
  | Arrays args =>
      let sparse := default false (kw_sparse kw) in
      let indexing := default "xy"%string (kw_indexing kw) in
      let ndim := length args in
      let s0 := replicate ndim 1%Z in
      output ← meshgrid_reshape s0 args;
      let shape := size <$> output in
      '(output, shape) ←
        (if String.eqb indexing "xy" then meshgrid_xy ndim output shape
         else mret (output, shape));
      if sparse then
        if copy then mret (Arrays (array_copy <$> output))
        else mret (Arrays output)
      else
        if copy then
          let mult_fact := ones shape in
          Arrays <$> mapM (fun a => multiply a mult_fact) output
        else Arrays <$> broadcast_arrays output
  end.

(** [def ndgrid( *args, **kwargs )]: [kwargs['indexing'] = 'ij'], then
    [meshgrid]. *)
Definition ndgrid (args : list (ndarray A)) (kw : kwargs) : result (arrays A) :=
  meshgrid args
    {| kw_indexing := Some "ij"%string; kw_sparse := kw_sparse kw; kw_copy := kw_copy kw |}.

(** The full shape of the grid of [xi]: the sizes of the inputs, the first
    two of them exchanged when the indexing is ['xy']. *)
Definition grid_shape (indexing : string) (xi : list (ndarray A)) : list nat :=
  let s := size <$> xi in
  if String.eqb indexing "xy" then swap01 s else s.
End Meshgrid.

(** *** The arrays of the grid, in closed form *)

(** The shape with extent [n] on axis [i] and extent 1 on the other axes of
    [N]. *)
Definition onehot (N i n : nat) : list nat :=
  replicate i 1 ++ n :: replicate (N - S i) 1.

Section MeshgridDefs.
Context {A : Type} `{Numeric A}.

(** A one-dimensional coordinate vector. *)
Definition vector (l : list A) : ndarray A := mkArray [length l] l.

(** The arrays of [output] after the comprehension, for the inputs from
    position [k] on: input [i] is reshaped to vary along axis [i]. *)
Fixpoint reshaped (N k : nat) (args : list (ndarray A)) : list (ndarray A) :=
  match args with
  | [] => []
  | a :: args' => mkArray (onehot N k (size a)) (data a) :: reshaped N (S k) args'
  end.

(** An array stretched to the shape [F]. *)
Definition broadcasted (F : list nat) (a : ndarray A) : ndarray A :=
  mkArray F
    ((fun j => nth (ravel (shape a) (broadcast_index (shape a) (unravel F j)))
                 (data a) num_zero)
       <$> seq 0 (prod F)).

(** The arrays of [output] when the sparse branch is reached, for [args]
    as [np.atleast_1d] returned them: with ['xy'] indexing the first array
    varies along axis 1 and the second along axis 0. *)
Definition sparse_outputs (indexing : string) (args : list (ndarray A))
  : list (ndarray A) :=
  let N := length args in
  match args with
  | a0 :: a1 :: rest =>
      if String.eqb indexing "xy"
      then mkArray (onehot N 1 (size a0)) (data a0)
           :: mkArray (onehot N 0 (size a1)) (data a1)
           :: reshaped N 2 rest
      else reshaped N 0 args
  | _ => reshaped N 0 args
  end.

(** The same elements under the shape with its first two axes exchanged. *)
Definition swap_shape (a : ndarray A) : ndarray A :=
  mkArray (swap01 (shape a)) (data a).

(** One of the first two axes has extent 1. *)
Definition thin01 (t : list nat) : Prop :=
  match t with
  | d0 :: d1 :: _ => d0 = 1 \/ d1 = 1
  | _ => True
  end.
End MeshgridDefs.

(** ** The odd factorial product *)

Section Legendre.
Local Open Scope Z_scope.

(** The loop of [odd_factorial_fn] on its two variables:
    [while k >= 3: k -= 2; f *= k]. *)
Equations? odd_factorial_while (k f : Z) : Z by wf (Z.to_nat k) lt :=
  odd_factorial_while k f with Z_ge_dec k 3 => {
    | left _ := odd_factorial_while (k - 2) (f * (k - 2));
    | right _ := f }.
Proof. lia. Qed.

(** [def odd_factorial_fn(k)]: [f = k], the loop, [return f]. *)
Definition odd_factorial_fn (k : Z) : Z := odd_factorial_while k k.

(** [odd_factorial = Memoize(odd_factorial_fn)]: the module-level wrapper in
    its initial state.  The argument tuple [(k,)] is keyed by [k]. *)
Definition odd_factorial : Memoize Z Z := Memoize_init odd_factorial_fn.

(** ** The Legendre evaluator *)

(** [legendre] reads and grows the cache of the module-level [odd_factorial]
    and may raise: a computation takes the wrapper's state and returns an
    outcome with the state it leaves. *)
Definition M (A : Type) : Type := Memoize Z Z -> result A * Memoize Z Z.

#[global] Instance M_ret : MRet M := fun _ a st => (Ok a, st).
#[global] Instance M_bind : MBind M := fun _ _ k c st =>
  match c st with
  | (Ok a, st') => k a st'
  | (Raise e, st') => (Raise e, st')
  end.

Definition raise {A} (e : exception) : M A := fun st => (Raise e, st).

(** A call [odd_factorial(k)] of the module-level wrapper. *)
Definition call_odd_factorial (k : Z) : M Z := fun st => Memoize_call st k.

(** [for n in l: st = body(n, st)]. *)
Fixpoint for_in {A S : Type} (l : list A) (body : A -> S -> M S) (s : S) : M S :=
  match l with
  | [] => mret s
  | n :: l' => s' ← body n s; for_in l' body s'
  end.

(** [xrange(a, b)]: the integers [a, a+1, ..., b-1]; empty when [b <= a]. *)
Definition xrange (a b : Z) : list Z :=
  map (fun i => a + Z.of_nat i) (seq 0 (Z.to_nat (b - a))).

(** [math.sqrt]: raises [ValueError] on a negative argument. *)
Definition math_sqrt (r : R) : M R :=
  if Rlt_dec r 0 then raise (ValueError "math domain error")
  else mret (sqrt r).

(** [a / b] for a float [a] and an integer [b]: true division, which raises
    [ZeroDivisionError] when [b] is zero. *)
Definition float_div (a : R) (b : Z) : M R :=
  if b =? 0 then raise ZeroDivisionError else mret (a / IZR b)%R.

(** The local variables of the recursion loop; [result] is unbound until the
    body has run once. *)
Record legendre_locals : Type := mkLocals {
  p_nu_prev : R;
  p_nu : R;
  loop_result : option R
}.

(** The body of [for n in xrange(mu + 2, nu + 1)]:
    [result = (x * (2 * n - 1) * p_nu - (n + mu - 1) * p_nu_prev) / (n - mu)],
    [p_nu_prev = p_nu], [p_nu = result]. *)
Definition legendre_body (mu : Z) (x : R) (n : Z) (v : legendre_locals)
  : M legendre_locals :=
  r ← float_div (x * IZR (2 * n - 1) * p_nu v
                 - IZR (n + mu - 1) * p_nu_prev v)%R (n - mu);
  mret {| p_nu_prev := p_nu v; p_nu := r; loop_result := Some r |}.

(** The initial term: [1.0] when [mu == 0], otherwise
    [s * odd_factorial(2 * mu - 1) * z ** mu] with [s = -1] when [mu & 1]
    and [z = sqrt(1 - x ** 2)]. *)
Definition legendre_seed (mu : Z) (x : R) : M R :=
  if mu =? 0 then mret 1%R
  else
    let s := if Z.land mu 1 =? 0 then 1 else -1 in
    z ← math_sqrt (1 - x ^ 2)%R;
    o ← call_odd_factorial (2 * mu - 1);
    mret (IZR (s * o) * powerRZ z mu)%R.

(** [def legendre(nu, mu, x)]. *)
Definition legendre (nu mu : Z) (x : R) : M R :=
  if (mu <? 0) || (mu >? nu) then raise InvalidOrder
  else if Rgt_dec (Rabs x) 1 then raise InvalidArgument
  else
    p ← legendre_seed mu x;
    if mu =? nu then mret p
    else
      let p_prev := p in
      let p := (x * IZR (2 * mu + 1) * p)%R in
      if nu =? mu + 1 then mret p
      else
        v ← for_in (xrange (mu + 2) (nu + 1)) (legendre_body mu x)
              {| p_nu_prev := p_prev; p_nu := p; loop_result := None |};
        match loop_result v with
        | Some r => mret r
        | None => raise (UnboundLocalError "result")
        end.

(** The values [legendre] computes, read off its body: the initial term
    from the value [o] that the call [odd_factorial(2 * mu - 1)] returned,
    and the value of [p_nu] once the recursion has reached degree [mu + d]
    from the initial term [p0]. *)
Definition seed_value (mu : Z) (x : R) (o : Z) : R :=
  if mu =? 0 then 1%R
  else (IZR ((if Z.land mu 1 =? 0 then 1 else -1) * o)
        * powerRZ (sqrt (1 - x ^ 2)) mu)%R.

Fixpoint p_nu_at (mu : Z) (x : R) (p0 : R) (d : nat) : R :=
  match d with
  | O => p0
  | S d' =>
      match d' with
      | O => (x * IZR (2 * mu + 1) * p0)%R
      | S d'' =>
          let n := mu + Z.of_nat d in
          ((x * IZR (2 * n - 1) * p_nu_at mu x p0 d'
            - IZR (n + mu - 1) * p_nu_at mu x p0 d'') / IZR (n - mu))%R
      end
  end.

(** *** The algorithm as the specification words it *)


(** [oddFactorialProduct(k)]: the product of the odd integers from [k] down
    to [1], and [1] when [k < 1]. *)
Definition spec_oddFactorialProduct (k : Z) : Z :=
  fold_right Z.mul 1 (filter Z.odd (xrange 1 (k + 1))).




End Legendre.

(** ** The memoized factorial *)

Section MemoizeRaising.
Context {K : Type} `{Countable K} {V : Type}.

(** [class Memoize] around a function that may raise: [f] returns an
    outcome, and an exception of [self.f( *args )] leaves [__call__] before
    the assignment to [self.memo[args]].  [raising_evals] is ghost state:
    every argument tuple at which [self.f] was evaluated, most recent
    first, whether it returned or raised. *)
Record Memoize_raising : Type := mkMemoize_raising {
  raising_f : K -> result V;
  raising_memo : gmap K V;
  raising_evals : list K
}.

(** [__init__]. *)
Definition Memoize_raising_init (g : K -> result V) : Memoize_raising :=
  {| raising_f := g; raising_memo := ∅; raising_evals := [] |}.

(** [__call__(self, *args)]. *)
Definition Memoize_raising_call (self : Memoize_raising) (args : K)
  : result V * Memoize_raising :=
  match raising_memo self !! args with
  | None =>
      match raising_f self args with
      | Ok v =>
          let self' :=
            {| raising_f := raising_f self;
               raising_memo := <[args := v]> (raising_memo self);
               raising_evals := args :: raising_evals self |} in
          (match raising_memo self' !! args with
           | Some w => Ok w
           | None => Raise KeyError
           end, self')
      | Raise e =>
          (Raise e,
           {| raising_f := raising_f self;
              raising_memo := raising_memo self;
              raising_evals := args :: raising_evals self |})
      end
  | Some _ =>
      (match raising_memo self !! args with
       | Some w => Ok w
       | None => Raise KeyError
       end, self)
  end.

(** A sequence of calls on one wrapper, oldest first, with every outcome. *)
Fixpoint Memoize_raising_calls (self : Memoize_raising) (l : list K)
  : list (result V) * Memoize_raising :=
  match l with
  | [] => ([], self)
  | a :: l' =>
      let '(r, self') := Memoize_raising_call self a in
      let '(rs, self'') := Memoize_raising_calls self' l' in
      (r :: rs, self'')
  end.

(** How often [a] occurs in a list of argument tuples. *)
Definition occurrences (a : K) (l : list K) : nat :=
  length (filter (fun k => k = a) l).

(** What a wrapper of [g] keeps: it wraps [g], its cache holds values [g]
    returned, and an argument [g] returns on was evaluated once if it is
    cached and never otherwise. *)
Record Memoize_raising_inv (g : K -> result V) (self : Memoize_raising) : Prop := {
  rinv_f : raising_f self = g;
  rinv_memo : forall k v, raising_memo self !! k = Some v -> g k = Ok v;
  rinv_evals : forall k v, g k = Ok v ->
    occurrences k (raising_evals self)
    = match raising_memo self !! k with Some _ => 1 | None => 0 end
}.

End MemoizeRaising.
Arguments Memoize_raising K {_ _} V.

(** [math.factorial] on an integer: [ValueError] below zero. *)
Definition math_factorial (n : Z) : result Z :=
  if (n <? 0)%Z then Raise (ValueError "factorial() not defined for negative values")
  else Ok (Z.of_nat (fact (Z.to_nat n))).

(** [factorial = Memoize(math.factorial)]. *)
Definition factorial : Memoize_raising Z Z := Memoize_raising_init math_factorial.

(** ** Matrices of the coordinate transform *)

Section TransformMoreDefs.
Context {E : Type} `{Numeric E}.

(** The 4x4 identity matrix. *)
Definition identity_matrix : ndarray E :=
  mkArray [4; 4]
    [num_one; num_zero; num_zero; num_zero;
     num_zero; num_one; num_zero; num_zero;
     num_zero; num_zero; num_one; num_zero;
     num_zero; num_zero; num_zero; num_one].

(** What [transform_coordinates] returns on arrays of one shape [s]: axis
    [i] holds the contract at every position. *)
Definition affine_image (A : CoordsVector E) (M : ndarray E) (s : list nat)
  : CoordsVector E :=
  mkCoordsVector
    (mkArray s (spec_affine_at A M 0 <$> seq 0 (prod s)))
    (mkArray s (spec_affine_at A M 1 <$> seq 0 (prod s)))
    (mkArray s (spec_affine_at A M 2 <$> seq 0 (prod s))).
End TransformMoreDefs.


(** The shape three arrays of an arithmetic expression [a + b + c]
    broadcast to, from left to right. *)
Definition joint_shape (sx sy sz : list nat) : result (list nat) :=
  r ← broadcast_shapes sx sy; broadcast_shapes r sz.

(** The axis along which output [k] of [meshgrid] varies: axis [k], with
    0 and 1 exchanged when the indexing is ['xy']. *)
Definition axis_of (indexing : string) (k : nat) : nat :=
  if String.eqb indexing "xy" then
    match k with
    | 0 => 1
    | 1 => 0
    | _ => k
    end
  else k.

(** * Properties *)

(** ** Shapes and indices *)

Section IndexFacts.
  Implicit Types (s t idx : list nat) (j n : nat).

Lemma prod_app s t : prod (s ++ t) = prod s * prod t.
Proof.
  induction s as [|d s IH]; simpl; [lia |]. rewrite IH. lia.
Qed.

Lemma prod_replicate_1 n : prod (replicate n 1) = 1.
Proof. induction n as [|n IH]; simpl; [reflexivity | rewrite IH; reflexivity]. Qed.

Lemma valid_index_length s idx : valid_index s idx -> length idx = length s.
Proof. apply Forall2_length. Qed.

Lemma unravel_valid s : forall j, j < prod s -> valid_index s (unravel s j).
Proof.
  induction s as [|d s IH]; intros j Hj; simpl in *.
  - constructor.
  - assert (Hp : prod s <> 0) by (intros Hz; rewrite Hz in Hj; lia).
    constructor.
    + apply Nat.Div0.div_lt_upper_bound. lia.
    + apply IH. apply Nat.mod_upper_bound. exact Hp.
Qed.

Lemma ravel_unravel s : forall j, j < prod s -> ravel s (unravel s j) = j.
Proof.
  induction s as [|d s IH]; intros j Hj; simpl in *.
  - lia.
  - assert (Hp : prod s <> 0) by (intros Hz; rewrite Hz in Hj; lia).
    rewrite IH by (apply Nat.mod_upper_bound; exact Hp).
    pose proof (Nat.div_mod_eq j (prod s)). lia.
Qed.

Lemma ravel_lt s idx : valid_index s idx -> ravel s idx < prod s.
Proof.
  intros Hv. induction Hv as [|i d idx s Hi Hv IH]; simpl; [lia |]. nia.
Qed.

Lemma unravel_ravel s idx : valid_index s idx -> unravel s (ravel s idx) = idx.
Proof.
  intros Hv. induction Hv as [|i d idx s Hi Hv IH]; simpl; [reflexivity |].
  pose proof (ravel_lt s idx Hv) as Hlt.
  assert (Hdiv : (i * prod s + ravel s idx) / prod s = i).
  { rewrite Nat.div_add_l by lia. rewrite Nat.div_small by exact Hlt. lia. }
  assert (Hmod : (i * prod s + ravel s idx) mod prod s = ravel s idx).
  { rewrite Nat.add_comm, Nat.Div0.mod_add. apply Nat.mod_small. exact Hlt. }
  rewrite Hdiv, Hmod, IH. reflexivity.
Qed.

(** On a multi-index of the shape itself broadcasting reads where asked. *)
Lemma broadcast_index_valid s idx :
  valid_index s idx -> broadcast_index s idx = idx.
Proof.
  intros Hv. induction Hv as [|i d idx s Hi Hv IH]; [reflexivity |].
  unfold broadcast_index in *. simpl. rewrite IH. f_equal.
  destruct (Nat.eqb_spec d 1); lia.
Qed.

(** A shape of ones is read at offset 0 whatever the index. *)
Lemma ravel_ones n idx :
  ravel (replicate n 1) (broadcast_index (replicate n 1) idx) = 0.
Proof.
  revert idx. induction n as [|n IH]; intros [|i idx]; try reflexivity.
  unfold broadcast_index in *. simpl. rewrite IH. reflexivity.
Qed.

Lemma pad_shape_same s : pad_shape (length s) s = s.
Proof. unfold pad_shape. rewrite Nat.sub_diag. reflexivity. Qed.

Lemma pad_shape_eq n s : length s = n -> pad_shape n s = s.
Proof. intros <-. apply pad_shape_same. Qed.

Lemma stretches_refl s : stretches s s = true.
Proof.
  unfold stretches. rewrite Nat.eqb_refl. simpl.
  induction s as [|d s IH]; simpl; [reflexivity |].
  rewrite Nat.eqb_refl. exact IH.
Qed.

Lemma stretches_ones s : stretches (replicate (length s) 1) s = true.
Proof.
  unfold stretches. rewrite length_replicate, Nat.eqb_refl. simpl.
  induction s as [|d s IH]; simpl; [reflexivity |].
  rewrite orb_true_r. exact IH.
Qed.

Lemma broadcast_dims_same s : broadcast_dims s s = Ok s.
Proof.
  induction s as [|d s IH]; simpl; [reflexivity |].
  unfold broadcast_dim. rewrite Nat.eqb_refl. simpl. rewrite IH. reflexivity.
Qed.

Lemma broadcast_dim_one_r d : broadcast_dim d 1 = Ok d.
Proof.
  unfold broadcast_dim. destruct (Nat.eqb_spec d 1) as [-> | _]; reflexivity.
Qed.

Lemma broadcast_dim_one_l d : broadcast_dim 1 d = Ok d.
Proof.
  unfold broadcast_dim. destruct (Nat.eqb_spec 1 d) as [<- | _]; reflexivity.
Qed.

Lemma broadcast_dims_ones_r s : broadcast_dims s (replicate (length s) 1) = Ok s.
Proof.
  induction s as [|d s IH]; simpl; [reflexivity |].
  rewrite broadcast_dim_one_r. simpl. rewrite IH. reflexivity.
Qed.

Lemma broadcast_dims_ones_l s : broadcast_dims (replicate (length s) 1) s = Ok s.
Proof.
  induction s as [|d s IH]; simpl; [reflexivity |].
  rewrite broadcast_dim_one_l. simpl. rewrite IH. reflexivity.
Qed.

Lemma broadcast_shapes_same s : broadcast_shapes s s = Ok s.
Proof.
  unfold broadcast_shapes. rewrite Nat.max_id, pad_shape_same.
  apply broadcast_dims_same.
Qed.

Lemma broadcast_shapes_scalar s : broadcast_shapes s [] = Ok s.
Proof.
  unfold broadcast_shapes. simpl. rewrite Nat.max_0_r, pad_shape_same.
  unfold pad_shape. simpl. rewrite Nat.sub_0_r, app_nil_r.
  apply broadcast_dims_ones_r.
Qed.

End IndexFacts.

(** ** Array arithmetic *)

Section ArrayFacts.
  Context {A : Type} `{Numeric A}.
  Implicit Types (a b : ndarray A) (s : list nat) (v : A).

Lemma fmap_nth_seq (l : list A) (d : A) :
  (fun j => nth j l d) <$> seq 0 (length l) = l.
Proof.
  induction l as [|e l IH]; [reflexivity |].
  simpl. f_equal. rewrite <- seq_shift, <- list_fmap_compose. exact IH.
Qed.

Lemma fmap_const_seq v k n : (fun _ => v) <$> seq k n = replicate n v.
Proof.
  revert k. induction n as [|n IH]; intros k; [reflexivity |].
  simpl. f_equal. apply IH.
Qed.

Lemma fmap_seq_ext {B} (g h : nat -> B) n :
  (forall j, j < n -> g j = h j) -> g <$> seq 0 n = h <$> seq 0 n.
Proof.
  intros Hgh. apply list_fmap_ext. intros i j Hj.
  apply lookup_seq in Hj as [-> Hlt]. apply Hgh. exact Hlt.
Qed.

Lemma zip_with_replicate_r {B C} (op : A -> B -> C) (l : list A) (e : B) :
  zip_with op l (replicate (length l) e) = (fun c => op c e) <$> l.
Proof.
  induction l as [|c l IH]; [reflexivity |]. simpl. rewrite IH. reflexivity.
Qed.

Lemma zip_with_replicate_n {B C} (op : A -> B -> C) (l : list A) (e : B) n :
  length l = n -> zip_with op l (replicate n e) = (fun c => op c e) <$> l.
Proof. intros <-. apply zip_with_replicate_r. Qed.

(** Broadcasting an array to its own shape gives the array. *)
Lemma broadcast_to_same a : well_formed a -> broadcast_to a (shape a) = Ok a.
Proof.
  intros Hwf. unfold broadcast_to.
  rewrite pad_shape_same, stretches_refl. f_equal.
  destruct a as [s l]. unfold well_formed, size in Hwf. simpl in *.
  f_equal. rewrite <- Hwf.
  rewrite <- (fmap_nth_seq l num_zero) at 2.
  apply fmap_seq_ext. intros j Hj. rewrite Hwf in Hj.
  rewrite broadcast_index_valid by (apply unravel_valid; exact Hj).
  rewrite ravel_unravel by exact Hj. reflexivity.
Qed.

(** Broadcasting a scalar fills the shape with it. *)
Lemma broadcast_to_scalar v s :
  broadcast_to (scalar v) s = Ok (mkArray s (replicate (prod s) v)).
Proof.
  unfold broadcast_to, scalar, pad_shape. simpl.
  rewrite Nat.sub_0_r, app_nil_r, stretches_ones. f_equal. f_equal.
  rewrite <- (fmap_const_seq v 0). apply fmap_seq_ext. intros j _.
  rewrite ravel_ones. reflexivity.
Qed.

Lemma elementwise_same op a b :
  well_formed a -> well_formed b -> shape a = shape b ->
  elementwise op a b = Ok (mkArray (shape a) (zip_with op (data a) (data b))).
Proof.
  intros Ha Hb Hs. unfold elementwise.
  rewrite <- Hs, broadcast_shapes_same. simpl.
  rewrite (broadcast_to_same a Ha). simpl.
  rewrite Hs, (broadcast_to_same b Hb). reflexivity.
Qed.

Lemma elementwise_scalar op a v :
  well_formed a ->
  elementwise op a (scalar v)
  = Ok (mkArray (shape a) ((fun c => op c v) <$> data a)).
Proof.
  intros Ha. unfold elementwise.
  change (shape (scalar v)) with (@nil nat).
  rewrite broadcast_shapes_scalar. simpl.
  rewrite (broadcast_to_same a Ha). simpl.
  rewrite broadcast_to_scalar. simpl. do 2 f_equal.
  unfold well_formed, size in Ha. rewrite <- Ha.
  apply zip_with_replicate_r.
Qed.

End ArrayFacts.

(** ** The coordinate transform *)

Section TransformFacts.
  Context {E : Type} `{Numeric E}.
  Implicit Types (A B : CoordsVector E) (M : ndarray E).

(** Indexing a 4x4 matrix within its bounds reads the entry. *)
Lemma getitem2_entry M i j :
  matrix4x4 M -> i < 4 -> j < 4 -> getitem2 M i j = Ok (entry M i j).
Proof.
  intros [Hs Hl] Hi Hj. unfold getitem2, entry. rewrite Hs.
  destruct (Nat.ltb_spec i 4); [| lia]. destruct (Nat.ltb_spec j 4); [| lia].
  simpl. destruct (nth_lookup_or_length (data M) (i * 4 + j) num_zero) as [-> | Hge].
  - reflexivity.
  - lia.
Qed.

(** A row of the transform on three well-formed arrays of one shape. *)
Lemma affine_row_run (A1 A2 A3 : ndarray E) M i :
  well_formed A1 -> well_formed A2 -> well_formed A3 ->
  shape A2 = shape A1 -> shape A3 = shape A1 ->
  matrix4x4 M -> i < 4 ->
  affine_row A1 A2 A3 M i
  = Ok (mkArray (shape A1)
          ((fun c => num_add c (entry M i 3))
             <$> zip_with num_add
                   (zip_with num_add
                      ((fun c => num_mul c (entry M i 0)) <$> data A1)
                      ((fun c => num_mul c (entry M i 1)) <$> data A2))
                   ((fun c => num_mul c (entry M i 2)) <$> data A3))).
Proof.
  intros H1 H2 H3 Hs2 Hs3 HM Hi. unfold affine_row, multiply, add.
  unfold well_formed, size in H1, H2, H3.
  rewrite !getitem2_entry by (assumption || lia). cbn [mbind result_mbind result_bind].
  rewrite !elementwise_scalar by assumption. cbn [mbind result_mbind result_bind].
  rewrite elementwise_same;
    [| unfold well_formed, size; simpl; rewrite length_fmap; congruence ..
     | simpl; congruence].
  cbn [mbind result_mbind result_bind shape data].
  rewrite elementwise_same;
    [| unfold well_formed, size; simpl;
       rewrite ?length_zip_with, ?length_fmap; rewrite ?Hs2, ?Hs3 in *; lia ..
     | simpl; congruence].
  cbn [mbind result_mbind result_bind shape data].
  rewrite elementwise_scalar; [reflexivity |].
  unfold well_formed, size; simpl.
  rewrite ?length_zip_with, ?length_fmap; rewrite ?Hs2, ?Hs3 in *; lia.
Qed.

Lemma affine_row_at (A1 A2 A3 : ndarray E) M i p :
  p < length (data A1) -> length (data A2) = length (data A1) ->
  length (data A3) = length (data A1) ->
  nth p ((fun c => num_add c (entry M i 3))
           <$> zip_with num_add
                 (zip_with num_add
                    ((fun c => num_mul c (entry M i 0)) <$> data A1)
                    ((fun c => num_mul c (entry M i 1)) <$> data A2))
                 ((fun c => num_mul c (entry M i 2)) <$> data A3)) num_zero
  = spec_affine_at (mkCoordsVector A1 A2 A3) M i p.
Proof.
  intros Hp H2 H3. unfold spec_affine_at. simpl.
  destruct (lookup_lt_is_Some_2 (data A1) p Hp) as [c1 Hc1].
  destruct (lookup_lt_is_Some_2 (data A2) p ltac:(lia)) as [c2 Hc2].
  destruct (lookup_lt_is_Some_2 (data A3) p ltac:(lia)) as [c3 Hc3].
  rewrite (nth_lookup_Some _ _ _ _ Hc1), (nth_lookup_Some _ _ _ _ Hc2),
    (nth_lookup_Some _ _ _ _ Hc3).
  apply nth_lookup_Some.
  rewrite list_lookup_fmap, !lookup_zip_with, !list_lookup_fmap, Hc1, Hc2, Hc3.
  reflexivity.
Qed.

(** C5. For every [CoordsVector] of three well-formed arrays of one shape
    (0-d scalars included) and every 4x4 matrix [M],
    [transform_coordinates(A, M)] returns a [CoordsVector] [B] whose three
    arrays have that shape and hold, at every position of every axis [i],
    [A.x*M[i,0] + A.y*M[i,1] + A.z*M[i,2] + M[i,3]]. *)
Theorem transform_coordinates_affine A M (s : list nat) :
  shape (x A) = s -> shape (y A) = s -> shape (z A) = s ->
  well_formed (x A) -> well_formed (y A) -> well_formed (z A) ->
  matrix4x4 M ->
  exists B,
    transform_coordinates A M = Ok B
    /\ forall i, i < 3 ->
         shape (axis B i) = s
         /\ well_formed (axis B i)
         /\ forall p, p < prod s ->
              nth p (data (axis B i)) num_zero = spec_affine_at A M i p.
Proof.
  intros Hx Hy Hz Wx Wy Wz HM. unfold transform_coordinates.
  rewrite !affine_row_run by (assumption || congruence || lia).
  eexists. split; [reflexivity |].
  assert (Hlx : length (data (x A)) = prod s) by (rewrite <- Hx; exact Wx).
  assert (Hly : length (data (y A)) = prod s) by (rewrite <- Hy; exact Wy).
  assert (Hlz : length (data (z A)) = prod s) by (rewrite <- Hz; exact Wz).
  intros i Hi.
  destruct i as [|[|[|i]]]; [| | | lia]; cbn [axis x y z shape data];
    (split; [exact Hx |]; split;
     [ unfold well_formed, size; cbn [shape data];
       rewrite length_fmap, !length_zip_with, !length_fmap; rewrite Hx; lia
     | intros p Hp; rewrite affine_row_at by lia;
       destruct A as [a1 a2 a3]; reflexivity ]).
Qed.

(** C9. The last row of the matrix is never read: on every [CoordsVector],
    two 4x4 matrices that agree on rows 0 to 2 give the same outcome. *)
Theorem transform_coordinates_ignores_last_row A M M' :
  matrix4x4 M -> matrix4x4 M' ->
  (forall i j, i < 3 -> j < 4 -> entry M i j = entry M' i j) ->
  transform_coordinates A M = transform_coordinates A M'.
Proof.
  intros HM HM' Hrows. unfold transform_coordinates, affine_row.
  rewrite !(getitem2_entry M) by (assumption || lia).
  rewrite !(getitem2_entry M') by (assumption || lia).
  rewrite !Hrows by lia. reflexivity.
Qed.

End TransformFacts.

(** The sample points under the sample matrix. *)
Example transform_coordinates_sample :
  transform_coordinates sample_coords sample_matrix
  = Ok (mkCoordsVector (mkArray [2] [11; 12]%Z) (mkArray [2] [26; 28]%Z)
          (mkArray [2] [45; 48]%Z)).
Proof. reflexivity. Qed.

(** A single point, given as three 0-d arrays. *)
Example transform_coordinates_point :
  transform_coordinates
    (mkCoordsVector (scalar 1%Z) (scalar 2%Z) (scalar 3%Z)) sample_matrix
  = Ok (mkCoordsVector (scalar 11%Z) (scalar 24%Z) (scalar 39%Z)).
Proof. reflexivity. Qed.

Lemma transform_coordinates_affine_witness :
  exists B,
    transform_coordinates sample_coords sample_matrix = Ok B
    /\ forall i, i < 3 ->
         shape (axis B i) = [2]
         /\ well_formed (axis B i)
         /\ forall p, p < prod [2] ->
              nth p (data (axis B i)) num_zero
              = spec_affine_at sample_coords sample_matrix i p.
Proof.
  apply (transform_coordinates_affine sample_coords sample_matrix [2]);
    try reflexivity.
  split; reflexivity.
Defined.

Lemma transform_coordinates_ignores_last_row_witness :
  transform_coordinates sample_coords sample_matrix
  = transform_coordinates sample_coords sample_matrix_other_last_row.
Proof.
  apply (transform_coordinates_ignores_last_row
           sample_coords sample_matrix sample_matrix_other_last_row).
  - split; reflexivity.
  - split; reflexivity.
  - intros [|[|[|i]]] [|[|[|[|j]]]] Hi Hj; (reflexivity || lia).
Defined.

(** ** The memoization wrapper *)

Section MemoizeFacts.
  Context {K : Type} `{Countable K} {V : Type}.
  Implicit Types (g : K -> V) (self : Memoize K V) (a : K) (l : list K).

Lemma Memoize_init_inv g : Memoize_inv g (Memoize_init g).
Proof.
  split; simpl.
  - reflexivity.
  - intros k v Hk. rewrite lookup_empty in Hk. discriminate.
  - intros k. rewrite lookup_empty. split.
    + intros Hin. inversion Hin.
    + intros [v Hv]. discriminate.
  - constructor.
Qed.

(** A call never fails on the dictionary lookup that ends it. *)
Lemma Memoize_call_returns self a : exists v, (Memoize_call self a).1 = Ok v.
Proof.
  unfold Memoize_call. destruct (memo self !! a) as [v|] eqn:Hm; simpl.
  - rewrite Hm. eauto.
  - rewrite lookup_insert_eq. eauto.
Qed.

Lemma Memoize_call_value g self a :
  Memoize_inv g self -> (Memoize_call self a).1 = Ok (g a).
Proof.
  intros [Hf Hmemo _ _]. unfold Memoize_call.
  destruct (memo self !! a) as [v|] eqn:Hm; simpl.
  - rewrite Hm. f_equal. eauto.
  - rewrite lookup_insert_eq, Hf. reflexivity.
Qed.

Lemma Memoize_call_inv g self a :
  Memoize_inv g self -> Memoize_inv g (Memoize_call self a).2.
Proof.
  intros Hinv. destruct Hinv as [Hf Hmemo Hevals Hnodup]. unfold Memoize_call.
  destruct (memo self !! a) as [v|] eqn:Hm; simpl.
  - split; assumption.
  - split; simpl.
    + assumption.
    + intros k v. rewrite lookup_insert. case_decide as Hk.
      * intros [= <-]. subst k. rewrite Hf. reflexivity.
      * apply Hmemo.
    + intros k. rewrite elem_of_cons, lookup_insert. case_decide as Hk.
      * subst k. split; [eauto | auto].
      * rewrite Hevals. split; [intros [->|Hs]; [congruence | exact Hs] | auto].
    + constructor; [| assumption].
      rewrite Hevals, Hm. intros [v Hv]. discriminate.
Qed.


Lemma Memoize_calls_cons self a l :
  Memoize_calls self (a :: l)
  = ((Memoize_call self a).1 :: (Memoize_calls (Memoize_call self a).2 l).1,
     (Memoize_calls (Memoize_call self a).2 l).2).
Proof.
  cbn [Memoize_calls]. destruct (Memoize_call self a) as [r self'].
  cbn [fst snd]. destruct (Memoize_calls self' l). reflexivity.
Qed.



End MemoizeFacts.

(** ** The grid generator *)

Section ReshapeFacts.

Lemma filter_ne_replicate i :
  filter (fun d => d <> (-1)%Z) (replicate i 1%Z) = replicate i 1%Z.
Proof.
  induction i as [|i IH]; [reflexivity |]. simpl.
  rewrite filter_cons_True by (cbv beta; lia). rewrite IH. reflexivity.
Qed.

Lemma filter_eq_replicate i :
  filter (fun d => d = (-1)%Z) (replicate i 1%Z) = [].
Proof.
  induction i as [|i IH]; [reflexivity |]. simpl.
  rewrite filter_cons_False by (cbv beta; lia). exact IH.
Qed.

Lemma existsb_replicate i : existsb (fun d => (d <? -1)%Z) (replicate i 1%Z) = false.
Proof. induction i as [|i IH]; [reflexivity | exact IH]. Qed.

(** Reshaping to ones around a single [-1] puts all elements on that axis. *)
Lemma resolve_shape_onehot n i k :
  resolve_shape n (replicate i 1%Z ++ [(-1)%Z] ++ replicate k 1%Z)
  = Ok (replicate i 1 ++ n :: replicate k 1).
Proof.
  assert (Hneg : existsb (fun d => (d <? -1)%Z)
                   (replicate i 1%Z ++ [(-1)%Z] ++ replicate k 1%Z) = false).
  { rewrite !existsb_app, !existsb_replicate. reflexivity. }
  assert (Hknown : prod (Z.to_nat <$> filter (fun d => d <> (-1)%Z)
                           (replicate i 1%Z ++ [(-1)%Z] ++ replicate k 1%Z)) = 1).
  { rewrite !filter_app, !filter_ne_replicate.
    rewrite (filter_cons_False (fun d => d <> (-1)%Z)) by (cbv beta; lia).
    rewrite filter_nil, app_nil_l, fmap_app, !fmap_replicate, prod_app.
    change (Z.to_nat 1) with 1. rewrite !prod_replicate_1. reflexivity. }
  assert (Hunknown : length (filter (fun d => d = (-1)%Z)
                               (replicate i 1%Z ++ [(-1)%Z] ++ replicate k 1%Z)) = 1).
  { rewrite !filter_app, !filter_eq_replicate.
    rewrite (filter_cons_True (fun d => d = (-1)%Z)) by reflexivity.
    reflexivity. }
  unfold resolve_shape. rewrite Hneg, Hknown, Hunknown.
  rewrite Nat.mod_1_r, Nat.div_1_r. cbn [Nat.eqb orb negb].
  rewrite !fmap_app, !fmap_replicate. reflexivity.
Qed.

Lemma prod_onehot N i n : prod (onehot N i n) = n.
Proof.
  unfold onehot. rewrite prod_app. simpl. rewrite !prod_replicate_1. lia.
Qed.

Lemma length_onehot N i n : i < N -> length (onehot N i n) = N.
Proof.
  intros Hi. unfold onehot. rewrite length_app. simpl.
  rewrite !length_replicate. lia.
Qed.

End ReshapeFacts.

Section MeshgridFacts.
  Context {A : Type} `{Numeric A}.
  Implicit Types (a : ndarray A) (xi args : list (ndarray A)) (F : list nat).

Lemma reshape_onehot a N i :
  i < N ->
  reshape a (take i (replicate N 1%Z) ++ [(-1)%Z] ++ drop (S i) (replicate N 1%Z))
  = Ok (mkArray (onehot N i (size a)) (data a)).
Proof.
  intros Hi. unfold reshape.
  rewrite take_replicate, drop_replicate, Nat.min_l by lia.
  rewrite resolve_shape_onehot. reflexivity.
Qed.

Lemma meshgrid_reshape_from N args : forall k,
  k + length args <= N ->
  mapM (fun '(i, a) =>
          reshape a (take i (replicate N 1%Z) ++ [(-1)%Z]
                     ++ drop (S i) (replicate N 1%Z)))
       (zip (seq k (length args)) args)
  = Ok (reshaped N k args).
Proof.
  induction args as [|a args IH]; intros k Hk; [reflexivity |].
  simpl in Hk. cbn [length seq zip zip_with mapM reshaped].
  rewrite reshape_onehot by lia. cbn [mbind result_mbind result_bind].
  rewrite IH by lia. reflexivity.
Qed.

Lemma meshgrid_reshape_run args :
  meshgrid_reshape (replicate (length args) 1%Z) args
  = Ok (reshaped (length args) 0 args).
Proof. apply meshgrid_reshape_from. lia. Qed.

Lemma size_reshaped N k args : size <$> reshaped N k args = size <$> args.
Proof.
  revert k. induction args as [|a args IH]; intros k; [reflexivity |].
  cbn [reshaped fmap list_fmap]. rewrite IH. f_equal.
  unfold size at 1. apply prod_onehot.
Qed.

Lemma length_reshaped N k args : length (reshaped N k args) = length args.
Proof.
  revert k. induction args as [|a args IH]; intros k; [reflexivity |].
  simpl. rewrite IH. reflexivity.
Qed.

(** [t] stretches to [F]: axis by axis, equal or 1. *)
Lemma stretches_Forall2 (t F : list nat) :
  stretches t F = true <-> Forall2 (fun d e => d = e \/ d = 1) t F.
Proof.
  unfold stretches. rewrite andb_true_iff, Nat.eqb_eq. split.
  - intros [Hlen Hall]. revert F Hlen Hall.
    induction t as [|d t IH]; intros [|e F] Hlen Hall; try discriminate.
    + constructor.
    + simpl in Hall. apply andb_true_iff in Hall as [Hde Hall].
      constructor; [| apply IH; [simpl in Hlen; lia | exact Hall]].
      apply orb_true_iff in Hde as [Hde | Hde]; apply Nat.eqb_eq in Hde; auto.
  - intros Hall. induction Hall as [|d e t F Hde Hall [IHlen IH]].
    + split; reflexivity.
    + split; [simpl; lia |]. simpl. rewrite IH, andb_true_r.
      apply orb_true_iff. rewrite !Nat.eqb_eq. exact Hde.
Qed.

Lemma stretches_length (t F : list nat) :
  stretches t F = true -> length t = length F.
Proof. rewrite stretches_Forall2. apply Forall2_length. Qed.

Lemma broadcast_dims_stretches (t F : list nat) :
  stretches t F = true -> broadcast_dims t F = Ok F.
Proof.
  rewrite stretches_Forall2. intros Hall.
  induction Hall as [|d e t F Hde Hall IH]; [reflexivity |].
  simpl. rewrite IH.
  destruct Hde as [-> | ->].
  - unfold broadcast_dim. rewrite Nat.eqb_refl. reflexivity.
  - rewrite broadcast_dim_one_l. reflexivity.
Qed.

Lemma broadcast_to_stretches a F :
  stretches (shape a) F = true -> broadcast_to a F = Ok (broadcasted F a).
Proof.
  intros Hst. unfold broadcast_to.
  rewrite pad_shape_eq by (apply stretches_length; exact Hst).
  rewrite Hst. reflexivity.
Qed.

Lemma broadcast_to_ones F : broadcast_to (ones F) F = Ok (ones F).
Proof.
  apply (broadcast_to_same (ones F)).
  unfold well_formed, size. simpl. apply length_replicate.
Qed.

(** Multiplying by [np.ones(F)] stretches an array to [F] and leaves its
    elements as they are. *)
Lemma multiply_ones a F :
  stretches (shape a) F = true -> multiply a (ones F) = Ok (broadcasted F a).
Proof.
  intros Hst. unfold multiply, elementwise.
  change (shape (ones F)) with F.
  unfold broadcast_shapes.
  rewrite (stretches_length _ _ Hst), Nat.max_id, pad_shape_same.
  rewrite (pad_shape_eq _ (shape a)) by (apply stretches_length; exact Hst).
  rewrite (broadcast_dims_stretches _ _ Hst). cbn [mbind result_mbind result_bind].
  rewrite (broadcast_to_stretches _ _ Hst). cbn [mbind result_mbind result_bind].
  rewrite broadcast_to_ones.
  cbn [mbind result_mbind result_bind mret result_ret data broadcasted].
  unfold broadcasted. do 2 f_equal.
  change (data (ones F)) with (replicate (prod F) (@num_one A _)).
  rewrite zip_with_replicate_n by (rewrite length_fmap, length_seq; reflexivity).
  rewrite <- list_fmap_compose.
  apply list_fmap_ext. intros i j _. simpl. apply num_mul_one.
Qed.

Lemma mapM_broadcast_to F (outs : list (ndarray A)) :
  Forall (fun a => stretches (shape a) F = true) outs ->
  mapM (fun a => broadcast_to a F) outs = Ok (broadcasted F <$> outs).
Proof.
  intros Hall. induction Hall as [|a outs Ha Hall IH]; [reflexivity |].
  cbn [mapM]. rewrite (broadcast_to_stretches _ _ Ha).
  cbn [mbind result_mbind result_bind]. rewrite IH. reflexivity.
Qed.

Lemma mapM_multiply_ones F (outs : list (ndarray A)) :
  Forall (fun a => stretches (shape a) F = true) outs ->
  mapM (fun a => multiply a (ones F)) outs = Ok (broadcasted F <$> outs).
Proof.
  intros Hall. induction Hall as [|a outs Ha Hall IH]; [reflexivity |].
  cbn [mapM]. rewrite (multiply_ones _ _ Ha).
  cbn [mbind result_mbind result_bind]. rewrite IH. reflexivity.
Qed.

Lemma Forall2_stretch_ones (F : list nat) n :
  length F = n -> Forall2 (fun d e => d = e \/ d = 1) (replicate n 1) F.
Proof.
  intros <-. induction F as [|e F IH]; simpl; constructor; auto.
Qed.

Lemma stretches_onehot N (pre post : list nat) n :
  N = length pre + S (length post) ->
  stretches (onehot N (length pre) n) (pre ++ n :: post) = true.
Proof.
  intros ->. apply stretches_Forall2. unfold onehot.
  apply Forall2_app; [apply Forall2_stretch_ones; reflexivity |].
  constructor; [auto |]. apply Forall2_stretch_ones. lia.
Qed.

(** Every reshaped input stretches to the shape of all sizes. *)
Lemma reshaped_stretches N args : forall pre : list nat,
  N = length pre + length args ->
  Forall (fun o => stretches (shape o) (pre ++ (size <$> args)) = true)
         (reshaped N (length pre) args).
Proof.
  induction args as [|a args IH]; intros pre HN; [constructor |].
  cbn [reshaped fmap list_fmap]. constructor.
  - cbn [shape]. apply stretches_onehot. rewrite length_fmap. simpl in HN. lia.
  - specialize (IH (pre ++ [size a])).
    rewrite length_app, <- app_assoc in IH. simpl in IH.
    replace (length pre + 1) with (S (length pre)) in IH by lia.
    apply IH. simpl in HN. lia.
Qed.

Lemma broadcast_shapes_eq_len (s t : list nat) :
  length s = length t -> broadcast_shapes s t = broadcast_dims s t.
Proof.
  intros Hlen. unfold broadcast_shapes.
  rewrite Hlen, Nat.max_id, pad_shape_same, pad_shape_eq by exact Hlen.
  reflexivity.
Qed.

Lemma broadcast_dims_app (s1 s2 t1 t2 r1 r2 : list nat) :
  length s1 = length t1 ->
  broadcast_dims s1 t1 = Ok r1 -> broadcast_dims s2 t2 = Ok r2 ->
  broadcast_dims (s1 ++ s2) (t1 ++ t2) = Ok (r1 ++ r2).
Proof.
  revert t1 r1. induction s1 as [|d s1 IH]; intros [|e t1] r1 Hlen H1 H2;
    try discriminate.
  - simpl in H1. injection H1 as <-. exact H2.
  - simpl in *. destruct (broadcast_dim d e) as [c|]; [| discriminate].
    cbn [mbind result_mbind result_bind] in *.
    destruct (broadcast_dims s1 t1) as [r|] eqn:Hr; [| discriminate].
    cbn [mbind result_mbind result_bind mret result_ret] in *.
    injection H1 as <-.
    rewrite (IH t1 r) by (lia || reflexivity || assumption). reflexivity.
Qed.

Lemma replicate_S_app {X} k (e : X) (l : list X) :
  replicate (S k) e ++ l = replicate k e ++ e :: l.
Proof. induction k as [|k IH]; [reflexivity |]. simpl in *. rewrite IH. reflexivity. Qed.

Lemma broadcast_shapes_onehot N k n (rest : list nat) :
  N = k + S (length rest) ->
  broadcast_shapes (onehot N k n) (replicate k 1 ++ 1 :: rest)
  = Ok (replicate k 1 ++ n :: rest).
Proof.
  intros ->. rewrite broadcast_shapes_eq_len.
  - unfold onehot. apply broadcast_dims_app.
    + reflexivity.
    + apply broadcast_dims_same.
    + simpl. rewrite broadcast_dim_one_r. cbn [mbind result_mbind result_bind].
      replace (k + S (length rest) - S k) with (length rest) by lia.
      rewrite broadcast_dims_ones_l. reflexivity.
  - rewrite length_onehot by lia. rewrite length_app. simpl.
    rewrite length_replicate. reflexivity.
Qed.

(** The reshaped inputs broadcast to the shape of their sizes. *)
Lemma broadcast_shapes_list_reshaped N args : forall k,
  args <> [] -> N = k + length args ->
  broadcast_shapes_list (shape <$> reshaped N k args)
  = Ok (replicate k 1 ++ (size <$> args)).
Proof.
  induction args as [|a args IH]; intros k Hne HN; [contradiction |].
  destruct args as [|a' args].
  - simpl in *. rewrite broadcast_shapes_scalar. unfold onehot.
    replace (N - S k) with 0 by lia. reflexivity.
  - cbn [reshaped fmap list_fmap broadcast_shapes_list] in *.
    rewrite (IH (S k)) by (discriminate || (simpl in *; lia)).
    cbn [mbind result_mbind result_bind shape].
    rewrite replicate_S_app. apply broadcast_shapes_onehot.
    simpl in *. rewrite length_fmap. lia.
Qed.

Lemma atleast_1d_many xi :
  length xi <> 1 -> atleast_1d xi = Arrays (promote_1d <$> xi).
Proof. destruct xi as [|a [|b xi]]; simpl; intros Hlen; (reflexivity || lia). Qed.

Lemma size_promote_1d a : size (promote_1d a) = size a.
Proof.
  unfold promote_1d, ndim, size. destruct (shape a) as [|d s] eqn:Hs; simpl.
  - reflexivity.
  - rewrite Hs. reflexivity.
Qed.

Lemma sizes_promote_1d xi : size <$> (promote_1d <$> xi) = size <$> xi.
Proof.
  rewrite <- list_fmap_compose. apply list_fmap_ext.
  intros i a _. apply size_promote_1d.
Qed.

(** The ['xy'] branch on two or more reshaped inputs. *)
Lemma meshgrid_xy_run a0 a1 (rest : list (ndarray A)) :
  meshgrid_xy (S (S (length rest)))
    (reshaped (S (S (length rest))) 0 (a0 :: a1 :: rest))
    (size <$> a0 :: a1 :: rest)
  = Ok (sparse_outputs "xy" (a0 :: a1 :: rest), swap01 (size <$> a0 :: a1 :: rest)).
Proof.
  unfold meshgrid_xy, sparse_outputs, reshape.
  cbn [reshaped list_getitem lookup list_lookup mbind result_mbind result_bind].
  change (size (mkArray (onehot (S (S (length rest))) 0 (size a0)) (data a0)))
    with (prod (onehot (S (S (length rest))) 0 (size a0))).
  rewrite prod_onehot.
  replace (S (S (length rest)) - 2) with (length rest) by lia.
  change ([1; -1]%Z ++ replicate (length rest) 1%Z)
    with (replicate 1 1%Z ++ [(-1)%Z] ++ replicate (length rest) 1%Z).
  rewrite resolve_shape_onehot.
  cbn [mbind result_mbind result_bind mret result_ret insert list_insert
       list_getitem lookup list_lookup].
  change (size (mkArray (onehot (S (S (length rest))) 1 (size a1)) (data a1)))
    with (prod (onehot (S (S (length rest))) 1 (size a1))).
  rewrite prod_onehot.
  change ([-1; 1]%Z ++ replicate (length rest) 1%Z)
    with (replicate 0 1%Z ++ [(-1)%Z] ++ replicate (S (length rest)) 1%Z).
  rewrite resolve_shape_onehot.
  cbn [mbind result_mbind result_bind mret result_ret insert list_insert
       list_getitem lookup list_lookup fmap list_fmap data String.eqb Ascii.eqb
       Bool.eqb length swap01].
  unfold onehot.
  replace (S (S (length rest)) - 2) with (length rest) by lia.
  replace (S (S (length rest)) - 1) with (S (length rest)) by lia.
  reflexivity.
Qed.

(** The arrays of the sparse grid stretch to the full shape of the grid. *)
Lemma sparse_outputs_stretch indexing xi :
  2 <= length xi ->
  Forall (fun o => stretches (shape o) (grid_shape indexing xi) = true)
         (sparse_outputs indexing (promote_1d <$> xi)).
Proof.
  intros Hlen. unfold grid_shape. rewrite <- sizes_promote_1d.
  destruct (promote_1d <$> xi) as [|a0 [|a1 rest]] eqn:Hargs;
    try (apply (f_equal length) in Hargs; rewrite length_fmap in Hargs;
         simpl in Hargs; lia).
  unfold sparse_outputs. destruct (String.eqb indexing "xy").
  - cbn [fmap list_fmap swap01]. constructor; [| constructor].
    + apply (stretches_onehot _ [size a1] (size <$> rest)).
      simpl. rewrite length_fmap. reflexivity.
    + apply (stretches_onehot _ [] (size a0 :: (size <$> rest))).
      simpl. rewrite length_fmap. reflexivity.
    + apply (reshaped_stretches _ rest [size a1; size a0]). reflexivity.
  - apply (reshaped_stretches _ (a0 :: a1 :: rest) []). reflexivity.
Qed.

(** The arrays of the sparse grid broadcast to the full shape of the grid. *)
Lemma sparse_outputs_broadcast_shape indexing xi :
  2 <= length xi ->
  broadcast_shapes_list (shape <$> sparse_outputs indexing (promote_1d <$> xi))
  = Ok (grid_shape indexing xi).
Proof.
  intros Hlen. unfold grid_shape. rewrite <- sizes_promote_1d.
  destruct (promote_1d <$> xi) as [|a0 [|a1 rest]] eqn:Hargs;
    try (apply (f_equal length) in Hargs; rewrite length_fmap in Hargs;
         simpl in Hargs; lia).
  unfold sparse_outputs. destruct (String.eqb indexing "xy").
  - cbn [fmap list_fmap swap01 broadcast_shapes_list shape].
    destruct rest as [|a2 rest].
    + cbn [reshaped fmap list_fmap broadcast_shapes_list mret result_ret
           mbind result_mbind result_bind].
      rewrite broadcast_shapes_scalar. cbn [mbind result_mbind result_bind].
      rewrite broadcast_shapes_eq_len by reflexivity.
      unfold onehot. cbn [length Nat.sub replicate app broadcast_dims].
      rewrite broadcast_dim_one_l, broadcast_dim_one_r. reflexivity.
    + rewrite (broadcast_shapes_list_reshaped _ (a2 :: rest) 2)
        by (discriminate || reflexivity).
      cbn [mbind result_mbind result_bind].
      assert (Hlen_sz : length (size <$> a2 :: rest) = S (length rest))
        by (rewrite length_fmap; reflexivity).
      change (replicate 2 1 ++ (size <$> a2 :: rest))
        with (replicate 0 1 ++ 1 :: (1 :: (size <$> a2 :: rest))).
      rewrite broadcast_shapes_onehot
        by (cbn [length Nat.add]; rewrite Hlen_sz; reflexivity).
      cbn [mbind result_mbind result_bind replicate app].
      rewrite broadcast_shapes_eq_len
        by (rewrite length_onehot by (simpl; lia); cbn [length]; rewrite Hlen_sz;
            reflexivity).
      unfold onehot. cbn [replicate app broadcast_dims].
      rewrite broadcast_dim_one_l, broadcast_dim_one_r.
      cbn [mbind result_mbind result_bind].
      replace (length (a0 :: a1 :: a2 :: rest) - 2)
        with (length (size <$> a2 :: rest)) by (rewrite Hlen_sz; simpl; lia).
      rewrite broadcast_dims_ones_l. reflexivity.
  - apply (broadcast_shapes_list_reshaped _ (a0 :: a1 :: rest) 0);
      [discriminate | reflexivity].
Qed.

Lemma length_sparse_outputs indexing args :
  length (sparse_outputs indexing args) = length args.
Proof.
  unfold sparse_outputs. destruct args as [|a0 [|a1 rest]]; try reflexivity.
  destruct (String.eqb indexing "xy"); simpl; rewrite length_reshaped; reflexivity.
Qed.

(** What [meshgrid] returns on two or more inputs: the reshaped inputs in
    sparse mode, and each of them stretched to the full shape in dense
    mode, whether copied or not. *)
Lemma meshgrid_run xi kw :
  2 <= length xi ->
  meshgrid xi kw
  = Ok (Arrays
          (let outs := sparse_outputs (default "xy"%string (kw_indexing kw))
                         (promote_1d <$> xi) in
           if default false (kw_sparse kw) then outs
           else broadcasted (grid_shape (default "xy"%string (kw_indexing kw)) xi)
                  <$> outs)).
Proof.
  intros Hlen. unfold meshgrid.
  rewrite atleast_1d_many by lia.
  pose proof (sparse_outputs_stretch (default "xy"%string (kw_indexing kw)) xi Hlen)
    as Hstretch.
  pose proof (sparse_outputs_broadcast_shape
                (default "xy"%string (kw_indexing kw)) xi Hlen) as Hshape.
  unfold grid_shape in *. rewrite <- sizes_promote_1d in *.
  rewrite meshgrid_reshape_run. cbn [mbind result_mbind result_bind].
  rewrite size_reshaped.
  set (args := promote_1d <$> xi) in *.
  assert (Hxy : (if String.eqb (default "xy"%string (kw_indexing kw)) "xy"
                 then meshgrid_xy (length args) (reshaped (length args) 0 args)
                        (size <$> args)
                 else mret (reshaped (length args) 0 args, size <$> args))
                = Ok (sparse_outputs (default "xy"%string (kw_indexing kw)) args,
                      if String.eqb (default "xy"%string (kw_indexing kw)) "xy"
                      then swap01 (size <$> args) else size <$> args)).
  { destruct args as [|a0 [|a1 rest]] eqn:Hargs;
      try (apply (f_equal length) in Hargs; unfold args in Hargs;
           rewrite length_fmap in Hargs; simpl in Hargs; lia).
    destruct (String.eqb (default "xy"%string (kw_indexing kw)) "xy") eqn:Hix.
    - apply String.eqb_eq in Hix. rewrite Hix. apply meshgrid_xy_run.
    - unfold sparse_outputs. rewrite Hix. reflexivity. }
  rewrite Hxy. cbn [mbind result_mbind result_bind].
  destruct (default false (kw_sparse kw)).
  - destruct (default true (kw_copy kw)); [| reflexivity].
    unfold array_copy. cbn [mret result_ret]. rewrite list_fmap_id. reflexivity.
  - destruct (default true (kw_copy kw)).
    + rewrite (mapM_multiply_ones _ _ Hstretch). reflexivity.
    + unfold broadcast_arrays. rewrite Hshape. cbn [mbind result_mbind result_bind].
      rewrite (mapM_broadcast_to _ _ Hstretch). reflexivity.
Qed.


(** C3, on the code. Called with no coordinate vector and no keyword
    argument, [meshgrid] raises [IndexError], not the [TypeError] whose
    message names that case; with ['ij'] indexing and [sparse=True] it
    returns an empty list.  Called with one input, it raises that
    [TypeError] when the input holds no element, and otherwise returns the
    input (a 0-d input as a 1-d array), whatever the keyword arguments. *)
Theorem meshgrid_without_vectors :
  meshgrid (A:=A) [] no_kwargs = Raise (IndexError "list index out of range")
  /\ meshgrid (A:=A) [] (mkKwargs (Some "ij"%string) (Some true) None) = Ok (Arrays [])
  /\ forall a kw,
       meshgrid [a] kw
       = if 0 <? size a then Ok (Array (promote_1d a)) else Raise EmptyArguments.
Proof.
  split; [reflexivity |]. split; [reflexivity |].
  intros a kw. unfold meshgrid. cbn [atleast_1d fmap list_fmap].
  rewrite size_promote_1d. unfold array_copy.
  destruct (0 <? size a); [| reflexivity].
  destruct (default true (kw_copy kw)); reflexivity.
Qed.

End MeshgridFacts.

(** ** Exchanging the first two axes *)

Section SwapFacts.
  Context {A : Type} `{Numeric A}.
  Implicit Types (a o : ndarray A) (F t u : list nat).

Lemma valid_index_swap01 F u :
  valid_index (swap01 F) u -> valid_index F (swap01 u).
Proof.
  unfold valid_index. destruct F as [|f0 [|f1 F]]; simpl; intros Hv.
  - inversion Hv. constructor.
  - inversion Hv as [|? ? ? ? ? Htl]; subst. inversion Htl; subst. exact Hv.
  - inversion Hv as [|u0 ? ur ? H0 Htl]; subst.
    inversion Htl as [|u1 ? ur' ? H1 Htl']; subst.
    simpl. repeat constructor; assumption.
Qed.

(** Reading a stretched array at a multi-index of the full shape. *)
Lemma get_broadcasted F o idx :
  valid_index F idx ->
  get (broadcasted F o) idx
  = nth (ravel (shape o) (broadcast_index (shape o) idx)) (data o) num_zero.
Proof.
  intros Hv. unfold get, broadcasted. cbn [shape data].
  rewrite (nth_lookup_Some _ _ _
             (nth (ravel (shape o) (broadcast_index (shape o) idx)) (data o)
                num_zero)); [reflexivity |].
  rewrite list_lookup_fmap, lookup_seq_lt by (apply ravel_lt; exact Hv).
  simpl. rewrite unravel_ravel by exact Hv. reflexivity.
Qed.

(** When one of the first two axes has extent 1, exchanging them moves no
    element. *)
Lemma ravel_swap01 t u :
  thin01 t -> length u = length t ->
  ravel t (broadcast_index t (swap01 u))
  = ravel (swap01 t) (broadcast_index (swap01 t) u).
Proof.
  destruct t as [|d0 [|d1 t]]; destruct u as [|u0 [|u1 u]];
    try discriminate; try reflexivity.
  intros Hthin _. unfold broadcast_index. simpl.
  destruct Hthin as [-> | ->]; simpl.
  - destruct (d1 =? 1); lia.
  - destruct (d0 =? 1); lia.
Qed.

Lemma swapaxes01_broadcasted F o :
  stretches (shape o) F = true -> thin01 (shape o) ->
  swapaxes01 (broadcasted F o) = broadcasted (swap01 F) (swap_shape o).
Proof.
  intros Hst Hthin. unfold swapaxes01.
  change (shape (broadcasted F o)) with F.
  unfold broadcasted at 2. cbn [shape data swap_shape].
  f_equal. apply fmap_seq_ext. intros j Hj.
  pose proof (unravel_valid _ _ Hj) as Hv.
  rewrite get_broadcasted by (apply valid_index_swap01; exact Hv).
  rewrite ravel_swap01; [reflexivity | exact Hthin |].
  rewrite (valid_index_length _ _ Hv).
  destruct F as [|f0 [|f1 F]]; symmetry; apply stretches_length in Hst;
    simpl in *; lia.
Qed.

(** With ['xy'] indexing the sparse arrays are those of the matrix indexing
    under the exchanged shape. *)
Lemma swap_shape_reshaped N (args : list (ndarray A)) : forall k,
  swap_shape <$> reshaped N (S (S k)) args = reshaped N (S (S k)) args.
Proof.
  induction args as [|a args IH]; intros k; [reflexivity |].
  cbn [reshaped fmap list_fmap]. rewrite IH. reflexivity.
Qed.

Lemma thin01_reshaped N (args : list (ndarray A)) : forall k,
  Forall (fun o => thin01 (shape o)) (reshaped N (S (S k)) args).
Proof.
  induction args as [|a args IH]; intros k; constructor.
  - simpl. auto.
  - apply IH.
Qed.

Lemma sparse_outputs_xy (args : list (ndarray A)) indexing :
  2 <= length args -> String.eqb indexing "xy" = false ->
  sparse_outputs "xy" args = swap_shape <$> sparse_outputs indexing args
  /\ Forall (fun o => thin01 (shape o)) (sparse_outputs indexing args).
Proof.
  intros Hlen Hix. destruct args as [|a0 [|a1 rest]]; try (simpl in Hlen; lia).
  unfold sparse_outputs. rewrite Hix.
  cbn [String.eqb Ascii.eqb Bool.eqb reshaped fmap list_fmap length].
  rewrite swap_shape_reshaped. unfold swap_shape, onehot. cbn [shape data].
  replace (S (S (length rest)) - 2) with (length rest) by lia.
  replace (S (S (length rest)) - 1) with (S (length rest)) by lia.
  split; [reflexivity |].
  constructor; [simpl; auto |]. constructor; [simpl; auto |].
  apply thin01_reshaped.
Qed.

Lemma size_vector (l : list A) : size (vector l) = length l.
Proof. unfold size, vector. simpl. lia. Qed.

(** C2. For two or more one-dimensional coordinate vectors, in dense mode:
    with indexing ['ij'] [meshgrid] returns one array per vector, each of
    the shape [(L1, ..., LN)] of the lengths of the vectors; with indexing
    ['xy'], passed or left to its default, it returns these same arrays with
    their axes 0 and 1 exchanged, each of shape [(L2, L1, L3, ..., LN)]. *)
Theorem meshgrid_dense_shapes (vs : list (list A)) (dense copy : option bool) :
  2 <= length vs -> default false dense = false ->
  exists ij_out,
    meshgrid (vector <$> vs) (mkKwargs (Some "ij"%string) dense copy)
    = Ok (Arrays ij_out)
    /\ length ij_out = length vs
    /\ Forall (fun a => shape a = length <$> vs) ij_out
    /\ (forall indexing, default "xy"%string indexing = "xy"%string ->
        meshgrid (vector <$> vs) (mkKwargs indexing dense copy)
        = Ok (Arrays (swapaxes01 <$> ij_out)))
    /\ Forall (fun a => shape a = swap01 (length <$> vs)) (swapaxes01 <$> ij_out).
Proof.
  intros Hlen Hdense.
  assert (Hlen' : 2 <= length (vector <$> vs)) by (rewrite length_fmap; exact Hlen).
  assert (Hsizes : size <$> (vector <$> vs) = length <$> vs).
  { rewrite <- list_fmap_compose. apply list_fmap_ext. intros i l _. apply size_vector. }
  assert (Hij : grid_shape "ij" (vector <$> vs) = length <$> vs).
  { unfold grid_shape. rewrite Hsizes. reflexivity. }
  assert (Hxy : grid_shape "xy" (vector <$> vs) = swap01 (length <$> vs)).
  { unfold grid_shape. rewrite Hsizes. reflexivity. }
  destruct (sparse_outputs_xy (promote_1d <$> (vector <$> vs)) "ij") as [Hout Hthin];
    [rewrite length_fmap; exact Hlen' | reflexivity |].
  pose proof (sparse_outputs_stretch "ij" (vector <$> vs) Hlen') as Hstretch.
  rewrite Hij in Hstretch.
  exists (broadcasted (length <$> vs)
            <$> sparse_outputs "ij" (promote_1d <$> (vector <$> vs))).
  split; [| split; [| split; [| split]]].
  - rewrite meshgrid_run by exact Hlen'. cbv zeta.
    cbn [kw_indexing kw_sparse kw_copy]. rewrite Hdense.
    change (default "xy"%string (Some "ij"%string)) with "ij"%string.
    rewrite Hij. reflexivity.
  - rewrite length_fmap, length_sparse_outputs, !length_fmap. reflexivity.
  - apply Forall_fmap, Forall_true. intros o. reflexivity.
  - intros indexing Hix. rewrite meshgrid_run by exact Hlen'. cbv zeta.
    cbn [kw_indexing kw_sparse kw_copy]. rewrite Hdense, Hix, Hxy, Hout.
    do 2 f_equal.
    rewrite <- (list_fmap_compose swap_shape),
            <- (list_fmap_compose (broadcasted (length <$> vs)) swapaxes01).
    apply Forall_fmap_ext. rewrite Forall_forall in Hstretch, Hthin.
    apply Forall_forall. intros o Ho. simpl. symmetry.
    apply swapaxes01_broadcasted; [apply Hstretch | apply Hthin]; exact Ho.
  - apply Forall_fmap, Forall_fmap, Forall_true. intros o. reflexivity.
Qed.

End SwapFacts.

(** The examples of the docstring of [meshgrid], on integer coordinates. *)
Example meshgrid_xy_dense :
  meshgrid [vector [0; 1; 2]%Z; vector [0; 1]%Z] no_kwargs
  = Ok (Arrays [mkArray [2; 3] [0; 1; 2; 0; 1; 2]%Z;
                mkArray [2; 3] [0; 0; 0; 1; 1; 1]%Z]).
Proof. reflexivity. Qed.

Example meshgrid_xy_sparse :
  meshgrid [vector [0; 1; 2]%Z; vector [0; 1]%Z] (mkKwargs None (Some true) None)
  = Ok (Arrays [mkArray [1; 3] [0; 1; 2]%Z; mkArray [2; 1] [0; 1]%Z]).
Proof. reflexivity. Qed.

Example meshgrid_ij_sparse :
  meshgrid [vector [0; 1; 2]%Z; vector [0; 1]%Z]
    (mkKwargs (Some "ij"%string) (Some true) None)
  = Ok (Arrays [mkArray [3; 1] [0; 1; 2]%Z; mkArray [1; 2] [0; 1]%Z]).
Proof. reflexivity. Qed.

Example meshgrid_ij_dense :
  meshgrid [vector [0; 1; 2]%Z; vector [0; 1]%Z] (mkKwargs (Some "ij"%string) None None)
  = Ok (Arrays [mkArray [3; 2] [0; 0; 1; 1; 2; 2]%Z;
                mkArray [3; 2] [0; 1; 0; 1; 0; 1]%Z]).
Proof. reflexivity. Qed.

Example meshgrid_3d_point :
  meshgrid [scalar 0%Z; scalar 1%Z; scalar 5%Z] no_kwargs
  = Ok (Arrays [mkArray [1; 1; 1] [0]%Z; mkArray [1; 1; 1] [1]%Z;
                mkArray [1; 1; 1] [5]%Z]).
Proof. reflexivity. Qed.

Example meshgrid_scalar : meshgrid [scalar 3%Z] no_kwargs = Ok (Array (vector [3%Z])).
Proof. reflexivity. Qed.

Example ndgrid_overrides_indexing :
  ndgrid [vector [0; 1; 2]%Z; vector [0; 1]%Z] (mkKwargs (Some "xy"%string) None None)
  = meshgrid [vector [0; 1; 2]%Z; vector [0; 1]%Z] (mkKwargs (Some "ij"%string) None None).
Proof. reflexivity. Qed.

Lemma meshgrid_dense_shapes_witness :
  exists ij_out,
    meshgrid [vector [0; 1]; vector [0; 1; 2]]%Z (mkKwargs (Some "ij"%string) None None)
    = Ok (Arrays ij_out)
    /\ length ij_out = 2
    /\ Forall (fun a => shape a = [2; 3]) ij_out
    /\ (forall indexing, default "xy"%string indexing = "xy"%string ->
        meshgrid [vector [0; 1]; vector [0; 1; 2]]%Z (mkKwargs indexing None None)
        = Ok (Arrays (swapaxes01 <$> ij_out)))
    /\ Forall (fun a => shape a = [3; 2]) (swapaxes01 <$> ij_out).
Proof.
  apply (meshgrid_dense_shapes [[0; 1]; [0; 1; 2]]%Z None None);
    [simpl; lia | reflexivity].
Defined.


(** ** The odd factorial product *)

Section OddFactorialFacts.
Local Open Scope Z_scope.

Lemma xrange_empty a b : b <= a -> xrange a b = [].
Proof.
  intros Hba. unfold xrange.
  replace (Z.to_nat (b - a)) with 0%nat by lia. reflexivity.
Qed.

Lemma xrange_snoc a b : a <= b -> xrange a (b + 1) = xrange a b ++ [b].
Proof.
  intros Hab. unfold xrange.
  replace (Z.to_nat (b + 1 - a)) with (S (Z.to_nat (b - a))) by lia.
  rewrite seq_S, map_app. simpl. do 2 f_equal. lia.
Qed.

Lemma fold_mul_snoc (l : list Z) k :
  fold_right Z.mul 1 (l ++ [k]) = fold_right Z.mul 1 l * k.
Proof.
  induction l as [|a l IH]; simpl; [lia |]. rewrite IH. lia.
Qed.

Lemma spec_oddFactorialProduct_small k : k < 1 -> spec_oddFactorialProduct k = 1.
Proof.
  intros Hk. unfold spec_oddFactorialProduct.
  rewrite xrange_empty by lia. reflexivity.
Qed.

Lemma spec_oddFactorialProduct_step k :
  1 <= k -> Z.odd k = true ->
  spec_oddFactorialProduct k = spec_oddFactorialProduct (k - 2) * k.
Proof.
  intros Hk Hodd. unfold spec_oddFactorialProduct.
  assert (Heven : ~ Z.odd (k - 1)).
  { replace (k - 1) with (Z.pred k) by lia.
    rewrite Z.odd_pred, <- Z.negb_odd, Hodd. simpl. tauto. }
  rewrite (xrange_snoc 1 k) by lia.
  rewrite filter_app, filter_cons_True, filter_nil by (rewrite Hodd; exact I).
  rewrite fold_mul_snoc. f_equal. f_equal.
  replace (k - 2 + 1) with (k - 1) by lia.
  destruct (Z.eq_dec k 1) as [-> | Hne]; [reflexivity |].
  replace k with (k - 1 + 1) at 1 by lia.
  rewrite xrange_snoc by lia.
  rewrite filter_app, filter_cons_False, filter_nil by exact Heven.
  apply app_nil_r.
Qed.

Lemma odd_sub_2 k : Z.odd (k - 2) = Z.odd k.
Proof.
  replace (k - 2) with (Z.pred (Z.pred k)) by lia.
  rewrite Z.odd_pred, Z.even_pred. reflexivity.
Qed.

(** The loop multiplies its accumulator by the odd numbers below [k]. *)
Lemma odd_factorial_while_odd k acc :
  Z.odd k = true ->
  odd_factorial_while k acc = acc * spec_oddFactorialProduct (k - 2).
Proof.
  funelim (odd_factorial_while k acc); intros Hodd.
  - match goal with IH : Z.odd _ = true -> _ |- _ => rewrite IH end.
    + rewrite (spec_oddFactorialProduct_step (k - 2)); [lia | lia |].
      rewrite odd_sub_2. exact Hodd.
    + rewrite odd_sub_2. exact Hodd.
  - rewrite spec_oddFactorialProduct_small by lia. lia.
Qed.

(** Below 3 the loop body never runs. *)
Lemma odd_factorial_fn_small k : k < 3 -> odd_factorial_fn k = k.
Proof.
  intros Hk. unfold odd_factorial_fn.
  funelim (odd_factorial_while k k); [lia | reflexivity].
Qed.

Lemma odd_factorial_fn_odd k :
  1 <= k -> Z.odd k = true -> odd_factorial_fn k = spec_oddFactorialProduct k.
Proof.
  intros Hk Hodd. unfold odd_factorial_fn.
  rewrite odd_factorial_while_odd by exact Hodd.
  rewrite (spec_oddFactorialProduct_step k) by assumption. lia.
Qed.

Lemma odd_factorial_while_eq k acc :
  odd_factorial_while k acc
  = if Z_ge_dec k 3 then odd_factorial_while (k - 2) (acc * (k - 2)) else acc.
Proof.
  funelim (odd_factorial_while k acc); destruct (Z_ge_dec k 3);
    (reflexivity || contradiction).
Qed.

(** The loop is linear in its accumulator. *)
Lemma odd_factorial_while_linear (n : nat) : forall k acc,
  (Z.to_nat k <= n)%nat ->
  odd_factorial_while k acc = acc * odd_factorial_while k 1.
Proof.
  induction n as [|n IH]; intros k acc Hk;
    rewrite (odd_factorial_while_eq k acc), (odd_factorial_while_eq k 1);
    destruct (Z_ge_dec k 3) as [Hge | Hlt]; try lia.
  rewrite (IH (k - 2) (acc * (k - 2))), (IH (k - 2) (1 * (k - 2))) by lia.
  ring.
Qed.

(** From 3 on, one turn of the loop multiplies by the argument. *)
Lemma odd_factorial_fn_step k :
  3 <= k -> odd_factorial_fn k = k * odd_factorial_fn (k - 2).
Proof.
  intros Hk. unfold odd_factorial_fn.
  rewrite (odd_factorial_while_eq k k).
  destruct (Z_ge_dec k 3) as [_ | Hlt]; [| lia].
  rewrite (odd_factorial_while_linear (Z.to_nat k) (k - 2) (k * (k - 2))) by lia.
  rewrite (odd_factorial_while_linear (Z.to_nat k) (k - 2) (k - 2)) by lia.
  ring.
Qed.

Example odd_factorial_fn_values :
  map odd_factorial_fn [-1; 0; 1; 2; 3; 4; 5; 7; 9] = [-1; 0; 1; 2; 3; 8; 15; 105; 945].
Proof. reflexivity. Qed.

(** Three calls of the wrapper, two of them with the same argument: the
    function is evaluated twice. *)
Example odd_factorial_calls :
  (Memoize_calls odd_factorial [5; 3; 5]).1 = [Ok 15; Ok 3; Ok 15]
  /\ evals (Memoize_calls odd_factorial [5; 3; 5]).2 = [3; 5].
Proof. split; reflexivity. Qed.

(** C4, as the code has it. In every state of its cache, [odd_factorial(k)]
    returns the product of the odd integers from [k] down to 1 for every odd
    [k >= 1]; it returns [k] itself, not 1, for every [k < 1], and more
    generally for every [k < 3]; from 3 on it returns [k] times its value at
    [k - 2]. *)
Theorem odd_factorial_product_of_odd_integers (st : Memoize Z Z) (k : Z) :
  Memoize_inv odd_factorial_fn st ->
  (1 <= k -> Z.odd k = true ->
   (Memoize_call st k).1 = Ok (spec_oddFactorialProduct k))
  /\ (k < 1 -> (Memoize_call st k).1 = Ok k)
  /\ (k < 3 -> (Memoize_call st k).1 = Ok k)
  /\ (3 <= k -> (Memoize_call st k).1 = Ok (k * odd_factorial_fn (k - 2))).
Proof.
  intros Hinv. rewrite (Memoize_call_value _ _ _ Hinv).
  split; [| split; [| split]].
  - intros Hk Hodd. f_equal. apply odd_factorial_fn_odd; assumption.
  - intros Hk. f_equal. apply odd_factorial_fn_small. lia.
  - intros Hk. f_equal. apply odd_factorial_fn_small. exact Hk.
  - intros Hk. f_equal. apply odd_factorial_fn_step. exact Hk.
Qed.

Lemma odd_factorial_product_of_odd_integers_witness :
  (Memoize_call odd_factorial 5).1 = Ok (spec_oddFactorialProduct 5)
  /\ (Memoize_call odd_factorial (-3)).1 = Ok (-3).
Proof.
  destruct (odd_factorial_product_of_odd_integers odd_factorial 5
              (Memoize_init_inv odd_factorial_fn)) as [Hodd _].
  destruct (odd_factorial_product_of_odd_integers odd_factorial (-3)
              (Memoize_init_inv odd_factorial_fn)) as (_ & Hbelow & _).
  split; [apply Hodd; [lia | reflexivity] | apply Hbelow; lia].
Defined.

(** C4 as stated fails below 1: the first call [odd_factorial(-1)] returns
    [-1], while the product the claim names is 1 there. *)
Lemma odd_factorial_below_one_counterexample :
  (Memoize_call odd_factorial (-1)).1 = Ok (-1)
  /\ spec_oddFactorialProduct (-1) = 1
  /\ (Memoize_call odd_factorial (-1)).1 <> Ok (spec_oddFactorialProduct (-1)).
Proof.
  split; [reflexivity |]. split; [reflexivity |].
  intros Heq. vm_compute in Heq. discriminate Heq.
Qed.

End OddFactorialFacts.

(** ** The Legendre evaluator *)

Section LegendreFacts.
Local Open Scope Z_scope.

Lemma M_bind_run {A B} (c : M A) (k : A -> M B) st :
  (c ≫= k) st
  = match c st with
    | (Ok a, st') => k a st'
    | (Raise e, st') => (Raise e, st')
    end.
Proof. reflexivity. Qed.

Lemma xrange_from_mu mu nu :
  xrange (mu + 2) (nu + 1)
  = map (fun i => mu + Z.of_nat i) (seq 2 (Z.to_nat (nu - mu - 1))).
Proof.
  unfold xrange. replace (nu + 1 - (mu + 2)) with (nu - mu - 1) by lia.
  rewrite <- (seq_shift _ 1), <- (seq_shift _ 0), !map_map.
  apply map_ext. intros i. lia.
Qed.

Lemma p_nu_at_step mu x p0 d :
  p_nu_at mu x p0 (S (S d))
  = ((x * IZR (2 * (mu + Z.of_nat (S (S d))) - 1) * p_nu_at mu x p0 (S d)
      - IZR (mu + Z.of_nat (S (S d)) + mu - 1) * p_nu_at mu x p0 d)
     / IZR (mu + Z.of_nat (S (S d)) - mu))%R.
Proof. reflexivity. Qed.

(** The loop, started with [p_nu_prev] and [p_nu] at the degrees [mu + d]
    and [mu + d + 1], running over the [n] degrees that follow. *)
Lemma for_in_legendre_body mu x p0 n : forall d v st,
  p_nu_prev v = p_nu_at mu x p0 d ->
  p_nu v = p_nu_at mu x p0 (S d) ->
  for_in (map (fun i => mu + Z.of_nat i) (seq (S (S d)) n)) (legendre_body mu x) v st
  = (Ok (match n with
         | O => v
         | S n' =>
             {| p_nu_prev := p_nu_at mu x p0 (d + n);
                p_nu := p_nu_at mu x p0 (S d + n);
                loop_result := Some (p_nu_at mu x p0 (S d + n)) |}
         end), st).
Proof.
  induction n as [|n IH]; intros d v st Hprev Hp; [reflexivity |].
  cbn [seq map for_in]. rewrite M_bind_run.
  unfold legendre_body at 1. rewrite M_bind_run. unfold float_div.
  destruct (Z.eqb_spec (mu + Z.of_nat (S (S d)) - mu) 0) as [Hz | _]; [lia |].
  cbn [mret M_ret].
  rewrite IH; cbn [p_nu_prev p_nu].
  - f_equal. f_equal. destruct n as [|n'].
    + replace (d + 1)%nat with (S d) by lia.
      replace (S d + 1)%nat with (S (S d)) by lia.
      rewrite Hp, Hprev, <- p_nu_at_step. reflexivity.
    + replace (S d + S n')%nat with (d + S (S n'))%nat by lia.
      replace (S (S d) + S n')%nat with (S d + S (S n'))%nat by lia.
      reflexivity.
  - exact Hp.
  - rewrite Hp, Hprev, <- p_nu_at_step. reflexivity.
Qed.

(** The initial term, for an argument within [-1, 1]. *)
Lemma legendre_seed_run mu x st :
  (Rabs x <= 1)%R ->
  exists o st',
    (mu <> 0 -> (Memoize_call st (2 * mu - 1)).1 = Ok o)
    /\ legendre_seed mu x st = (Ok (seed_value mu x o), st').
Proof.
  intros Hx. unfold legendre_seed, seed_value.
  destruct (Z.eqb_spec mu 0) as [Hmu | Hmu].
  - exists 0, st. split; [contradiction | reflexivity].
  - destruct (Memoize_call_returns st (2 * mu - 1)) as [o Ho].
    exists o, (Memoize_call st (2 * mu - 1)).2. split; [intros _; exact Ho |].
    rewrite M_bind_run. unfold math_sqrt.
    destruct (Rlt_dec (1 - x ^ 2) 0) as [Hneg | _].
    + exfalso. unfold Rabs in Hx. destruct (Rcase_abs x); nra.
    + cbn [mret M_ret]. rewrite M_bind_run. unfold call_odd_factorial.
      destruct (Memoize_call st (2 * mu - 1)) as [r st'].
      simpl in Ho. subst r. reflexivity.
Qed.

(** What [legendre] returns on an order and an argument it accepts. *)
Lemma legendre_run nu mu x st :
  0 <= mu <= nu -> (Rabs x <= 1)%R ->
  exists o,
    (mu <> 0 -> (Memoize_call st (2 * mu - 1)).1 = Ok o)
    /\ (legendre nu mu x st).1
       = Ok (p_nu_at mu x (seed_value mu x o) (Z.to_nat (nu - mu))).
Proof.
  intros Hmu Hx. unfold legendre.
  destruct (Z.ltb_spec mu 0) as [? | _]; [lia |].
  destruct (Z.gtb_spec mu nu) as [? | _]; [lia |]. cbn [orb].
  destruct (Rgt_dec (Rabs x) 1) as [? | _]; [lra |].
  destruct (legendre_seed_run mu x st Hx) as (o & st' & Ho & Hseed).
  exists o. split; [exact Ho |].
  rewrite M_bind_run, Hseed.
  destruct (Z.eqb_spec mu nu) as [-> | Hne].
  { rewrite Z.sub_diag. reflexivity. }
  destruct (Z.eqb_spec nu (mu + 1)) as [-> | Hne1].
  { replace (mu + 1 - mu) with 1 by lia. reflexivity. }
  rewrite M_bind_run, xrange_from_mu.
  rewrite (for_in_legendre_body mu x (seed_value mu x o)) by reflexivity.
  destruct (Z.to_nat (nu - mu - 1)) as [|n'] eqn:Hn; [lia |].
  cbn [loop_result mret M_ret fst].
  do 2 f_equal. lia.
Qed.






(** Evaluate the integer under every [IZR] of the goal. *)
Ltac eval_IZR :=
  repeat match goal with
         | |- context [IZR ?n] =>
             let v := eval vm_compute in n in
             progress change (IZR n) with (IZR v)
         end.

(** [P_2^0(1/2) = (3/4 - 1) / 2] and [P_1^1(0) = -1], from an empty cache. *)
Example legendre_2_0_half : (legendre 2 0 (1 / 2) odd_factorial).1 = Ok (-1 / 8)%R.
Proof.
  destruct (legendre_run 2 0 (1 / 2) odd_factorial) as (o & _ & ->);
    [lia | apply Rabs_le; lra |].
  f_equal. change (Z.to_nat (2 - 0)) with 2%nat.
  rewrite p_nu_at_step. cbn [p_nu_at seed_value Z.eqb]. eval_IZR. lra.
Qed.

Example legendre_1_1_zero : (legendre 1 1 0 odd_factorial).1 = Ok (-1)%R.
Proof.
  destruct (legendre_run 1 1 0 odd_factorial) as (o & Ho & ->);
    [lia | apply Rabs_le; lra |].
  specialize (Ho ltac:(lia)). injection Ho as <-.
  f_equal. change (Z.to_nat (1 - 1)) with 0%nat.
  cbn [p_nu_at]. unfold seed_value. cbn [Z.eqb Z.land Pos.land].
  replace (1 - 0 ^ 2)%R with 1%R by ring. rewrite sqrt_1.
  eval_IZR. simpl. lra.
Qed.



(** The three outcomes of [legendre], by its two guards. *)
Lemma legendre_outcome nu mu x st :
  (mu < 0 \/ mu > nu -> (legendre nu mu x st).1 = Raise InvalidOrder)
  /\ (0 <= mu <= nu -> (Rabs x > 1)%R ->
      (legendre nu mu x st).1 = Raise InvalidArgument)
  /\ (0 <= mu <= nu -> (Rabs x <= 1)%R ->
      exists v, (legendre nu mu x st).1 = Ok v).
Proof.
  split; [| split].
  - intros Hmu. unfold legendre.
    destruct (Z.ltb_spec mu 0); [reflexivity |].
    destruct (Z.gtb_spec mu nu); [reflexivity | lia].
  - intros Hmu Hx. unfold legendre.
    destruct (Z.ltb_spec mu 0) as [? | _]; [lia |].
    destruct (Z.gtb_spec mu nu) as [? | _]; [lia |]. cbn [orb].
    destruct (Rgt_dec (Rabs x) 1) as [_ | ?]; [reflexivity | contradiction].
  - intros Hmu Hx. destruct (legendre_run nu mu x st Hmu Hx) as (o & _ & Hrun).
    eauto.
Qed.






End LegendreFacts.

(** ** More on the memoizing wrapper *)

Section MemoizeMore.
  Context {K : Type} `{Countable K} {V : Type}.
  Implicit Types (g : K -> V) (self : Memoize K V) (a : K) (l : list K).

(** X7. A call repeated at once is a cache hit: it returns what the first call
    returned and leaves the wrapper as the first call left it, whatever the
    cache held before. *)
Theorem Memoize_call_twice self a :
  Memoize_call (Memoize_call self a).2 a
  = ((Memoize_call self a).1, (Memoize_call self a).2).
Proof.
  unfold Memoize_call. destruct (memo self !! a) as [v|] eqn:Hm; simpl.
  - rewrite Hm. simpl. rewrite Hm. reflexivity.
  - rewrite lookup_insert_eq. simpl. rewrite lookup_insert_eq. reflexivity.
Qed.

Lemma Memoize_call_memo self a :
  f (Memoize_call self a).2 = f self
  /\ memo self ⊆ memo (Memoize_call self a).2
  /\ dom (memo (Memoize_call self a).2) = {[a]} ∪ dom (memo self).
Proof.
  unfold Memoize_call. destruct (memo self !! a) as [v|] eqn:Hm; simpl.
  - split; [reflexivity |]. split; [reflexivity |].
    assert (a ∈ dom (memo self)) by (apply elem_of_dom; eauto). set_solver.
  - split; [reflexivity |]. split; [apply insert_subseteq; exact Hm |].
    apply dom_insert_L.
Qed.

(** X8. The cache only grows: over any sequence of calls the wrapped function
    stays the same, no entry is removed or overwritten, and the keys added
    are the argument tuples of the calls. *)
Theorem Memoize_cache_grows l : forall self,
  f (Memoize_calls self l).2 = f self
  /\ memo self ⊆ memo (Memoize_calls self l).2
  /\ dom (memo (Memoize_calls self l).2) = list_to_set l ∪ dom (memo self).
Proof.
  induction l as [|a l IH]; intros self.
  - simpl. split; [reflexivity |]. split; [reflexivity | set_solver].
  - rewrite Memoize_calls_cons. cbn [snd].
    destruct (IH (Memoize_call self a).2) as (Hf & Hsub & Hdom).
    destruct (Memoize_call_memo self a) as (Hf' & Hsub' & Hdom').
    split; [congruence |]. split; [etrans; eassumption |].
    rewrite Hdom, Hdom'. simpl. set_solver.
Qed.
End MemoizeMore.

(** ** The memoized factorial *)

Section MemoizeRaisingFacts.
  Context {K : Type} `{Countable K} {V : Type}.
  Implicit Types (g : K -> result V) (self : Memoize_raising K V) (a k : K)
    (l : list K).

Lemma occurrences_cons a k l :
  occurrences a (k :: l) = (if decide (k = a) then 1 else 0) + occurrences a l.
Proof.
  unfold occurrences. destruct (decide (k = a)) as [Heq | Hne].
  - rewrite filter_cons_True by exact Heq. reflexivity.
  - rewrite filter_cons_False by exact Hne. reflexivity.
Qed.

Lemma Memoize_raising_init_inv g : Memoize_raising_inv g (Memoize_raising_init g).
Proof.
  split; simpl.
  - reflexivity.
  - intros k v Hk. rewrite lookup_empty in Hk. discriminate.
  - intros k v _. rewrite lookup_empty. reflexivity.
Qed.

(** One call, in a state the wrapper can be in. *)
Lemma Memoize_raising_call_step g self a :
  Memoize_raising_inv g self ->
  (Memoize_raising_call self a).1 = g a
  /\ Memoize_raising_inv g (Memoize_raising_call self a).2
  /\ raising_memo (Memoize_raising_call self a).2
     = match g a with
       | Ok v => <[a := v]> (raising_memo self)
       | Raise _ => raising_memo self
       end
  /\ raising_evals (Memoize_raising_call self a).2
     = match raising_memo self !! a with
       | Some _ => raising_evals self
       | None => a :: raising_evals self
       end.
Proof.
  intros [Hf Hmemo Hevals]. unfold Memoize_raising_call.
  destruct (raising_memo self !! a) as [v|] eqn:Hm.
  - rewrite (Hmemo a v Hm). cbn [fst snd].
    split; [reflexivity |]. split; [split; assumption |].
    split; [symmetry; apply insert_id; exact Hm | reflexivity].
  - rewrite Hf. destruct (g a) as [v | e] eqn:Hg; cbn [fst snd raising_memo raising_evals].
    + rewrite lookup_insert_eq. split; [reflexivity |].
      split; [| split; reflexivity].
      split; cbn [raising_f raising_memo raising_evals].
      * reflexivity.
      * intros k w. rewrite lookup_insert. case_decide as Hk.
        -- intros [= <-]. subst k. exact Hg.
        -- apply Hmemo.
      * intros k w Hk. rewrite occurrences_cons, lookup_insert.
        rewrite (Hevals k w Hk). destruct (decide (a = k)) as [<- | Hne].
        -- rewrite Hm. reflexivity.
        -- reflexivity.
    + split; [reflexivity |]. split; [| split; reflexivity].
      split; cbn [raising_f raising_memo raising_evals].
      * reflexivity.
      * exact Hmemo.
      * intros k w Hk. rewrite occurrences_cons, (Hevals k w Hk).
        destruct (decide (a = k)) as [<- | Hne]; [congruence | reflexivity].
Qed.




End MemoizeRaisingFacts.

(** [factorial(3)], [factorial(-1)] twice and [factorial(3)] again:
    [math.factorial] is evaluated three times, twice of them at [-1]. *)
Example factorial_calls :
  (Memoize_raising_calls factorial [3; -1; -1; 3]%Z).1
  = [Ok 6%Z; Raise (ValueError "factorial() not defined for negative values");
     Raise (ValueError "factorial() not defined for negative values"); Ok 6%Z]
  /\ raising_evals (Memoize_raising_calls factorial [3; -1; -1; 3]%Z).2
     = [-1; -1; 3]%Z.
Proof. split; reflexivity. Qed.

(** ** The two memoized helpers *)

Section FactorialFacts.
Local Open Scope Z_scope.

Lemma fact_S_Z (n : nat) :
  Z.of_nat (fact (S n)) = Z.of_nat (S n) * Z.of_nat (fact n).
Proof. change (fact (S n)) with (S n * fact n)%nat. apply Nat2Z.inj_mul. Qed.

(** The odd factorial product and the factorial: [(2n)! = (2n-1)!! 2^n n!]. *)
Lemma odd_factorial_fn_factorial (m : nat) :
  odd_factorial_fn (2 * Z.of_nat (S m) - 1) * 2 ^ Z.of_nat (S m)
    * Z.of_nat (fact (S m))
  = Z.of_nat (fact (2 * S m)).
Proof.
  induction m as [|m IH]; [reflexivity |].
  rewrite odd_factorial_fn_step by lia.
  replace (2 * Z.of_nat (S (S m)) - 1 - 2) with (2 * Z.of_nat (S m) - 1) by lia.
  replace (Z.of_nat (S (S m))) with (Z.succ (Z.of_nat (S m))) at 2 by lia.
  rewrite Z.pow_succ_r by lia.
  rewrite (fact_S_Z (S m)).
  replace (2 * S (S m))%nat with (S (S (2 * S m))) by lia.
  rewrite (fact_S_Z (S (2 * S m))), (fact_S_Z (2 * S m)), <- IH.
  rewrite !Nat2Z.inj_succ, !Nat2Z.inj_mul, !Nat2Z.inj_succ. simpl Z.of_nat. ring.
Qed.

(** X10. The two memoized helpers of the module agree with each other: for every
    [n >= 1], [factorial(2n)] is [odd_factorial(2n - 1) * 2^n * factorial(n)],
    in every state of the two caches. *)
Theorem odd_factorial_times_factorial (n : Z)
    (so : Memoize Z Z) (sf : Memoize_raising Z Z) :
  1 <= n ->
  Memoize_inv odd_factorial_fn so -> Memoize_raising_inv math_factorial sf ->
  exists d p q,
    (Memoize_call so (2 * n - 1)).1 = Ok d
    /\ (Memoize_raising_call sf n).1 = Ok p
    /\ (Memoize_raising_call sf (2 * n)).1 = Ok q
    /\ q = d * 2 ^ n * p.
Proof.
  intros Hn Hso Hsf.
  destruct (Memoize_raising_call_step _ sf n Hsf) as (Hp & _).
  destruct (Memoize_raising_call_step _ sf (2 * n) Hsf) as (Hq & _).
  rewrite (Memoize_call_value _ _ _ Hso), Hp, Hq. unfold math_factorial.
  destruct (Z.ltb_spec n 0); [lia |]. destruct (Z.ltb_spec (2 * n) 0); [lia |].
  eexists _, _, _. split; [reflexivity |]. split; [reflexivity |].
  split; [reflexivity |].
  destruct (Z.to_nat n) as [|m] eqn:Hm; [lia |].
  replace (Z.to_nat (2 * n)) with (2 * S m)%nat by lia.
  replace n with (Z.of_nat (S m)) by lia.
  symmetry. apply odd_factorial_fn_factorial.
Qed.

Lemma odd_factorial_times_factorial_witness :
  exists d p q,
    (Memoize_call odd_factorial (2 * 3 - 1)).1 = Ok d
    /\ (Memoize_raising_call factorial 3).1 = Ok p
    /\ (Memoize_raising_call factorial (2 * 3)).1 = Ok q
    /\ q = d * 2 ^ 3 * p.
Proof.
  apply (odd_factorial_times_factorial 3 odd_factorial factorial);
    [lia | apply Memoize_init_inv | apply Memoize_raising_init_inv].
Defined.

End FactorialFacts.

(** ** More on the Legendre function *)

Section LegendreMore.
Local Open Scope Z_scope.

Lemma legendre_seed_state mu x st :
  (Rabs x <= 1)%R ->
  (legendre_seed mu x st).2
  = if mu =? 0 then st else (Memoize_call st (2 * mu - 1)).2.
Proof.
  intros Hx. unfold legendre_seed.
  destruct (Z.eqb_spec mu 0) as [Hmu | Hmu]; [reflexivity |].
  rewrite M_bind_run. unfold math_sqrt.
  destruct (Rlt_dec (1 - x ^ 2) 0) as [Hneg | _].
  - exfalso. unfold Rabs in Hx. destruct (Rcase_abs x); nra.
  - cbn [mret M_ret]. rewrite M_bind_run. unfold call_odd_factorial.
    destruct (Memoize_call_returns st (2 * mu - 1)) as [o Ho].
    destruct (Memoize_call st (2 * mu - 1)) as [r st'].
    simpl in Ho. subst r. reflexivity.
Qed.

(** The cache after [legendre]: the call touches it through the one call
    [odd_factorial(2 * mu - 1)] of the initial term. *)
Lemma legendre_state (nu mu : Z) (x : R) (st : Memoize Z Z) :
  (legendre nu mu x st).2
  = if (mu <? 0) || (mu >? nu) then st
    else if Rgt_dec (Rabs x) 1 then st
    else if mu =? 0 then st
    else (Memoize_call st (2 * mu - 1)).2.
Proof.
  unfold legendre.
  destruct ((mu <? 0) || (mu >? nu)); [reflexivity |].
  destruct (Rgt_dec (Rabs x) 1) as [? | Hx]; [reflexivity |].
  assert (Hx' : (Rabs x <= 1)%R) by lra.
  pose proof (legendre_seed_state mu x st Hx') as Hstate.
  destruct (legendre_seed_run mu x st Hx') as (o & st' & _ & Hseed).
  rewrite Hseed in Hstate. cbn [snd] in Hstate. subst st'.
  rewrite M_bind_run, Hseed.
  destruct (mu =? nu); [reflexivity |].
  destruct (nu =? mu + 1); [reflexivity |].
  rewrite M_bind_run, xrange_from_mu.
  rewrite (for_in_legendre_body mu x (seed_value mu x o)) by reflexivity.
  destruct (Z.to_nat (nu - mu - 1)); reflexivity.
Qed.

(** X17. What [legendre] does to the cache of [odd_factorial]: it removes and
    overwrites nothing, it adds at most the key [2 * mu - 1], and it leaves
    the cache as it was when it raises and when [mu] is 0. *)
Theorem legendre_cache_effect (nu mu : Z) (x : R) (st : Memoize Z Z) :
  f (legendre nu mu x st).2 = f st
  /\ memo st ⊆ memo (legendre nu mu x st).2
  /\ dom (memo (legendre nu mu x st).2) ⊆ {[2 * mu - 1]} ∪ dom (memo st)
  /\ (mu <= 0 \/ nu < mu \/ (Rabs x > 1)%R -> (legendre nu mu x st).2 = st).
Proof.
  rewrite legendre_state.
  destruct (Z.ltb_spec mu 0) as [Hneg | Hnn]; cbn [orb];
    [repeat split; (reflexivity || set_solver) |].
  rewrite Z.gtb_ltb.
  destruct (Z.ltb_spec nu mu) as [Hgt | Hle];
    [repeat split; (reflexivity || set_solver) |].
  destruct (Rgt_dec (Rabs x) 1) as [Hx | Hx];
    [repeat split; (reflexivity || set_solver) |].
  destruct (Z.eqb_spec mu 0) as [Hz | Hnz];
    [repeat split; (reflexivity || set_solver) |].
  destruct (Memoize_call_memo st (2 * mu - 1)) as (Hf & Hsub & Hdom).
  split; [exact Hf |]. split; [exact Hsub |]. split; [rewrite Hdom; reflexivity |].
  intros [Hm | [Hm | Hm]]; (lia || contradiction).
Qed.

Lemma legendre_inv nu mu x st :
  Memoize_inv odd_factorial_fn st ->
  Memoize_inv odd_factorial_fn (legendre nu mu x st).2.
Proof.
  intros Hinv. rewrite legendre_state.
  destruct ((mu <? 0) || (mu >? nu)); [assumption |].
  destruct (Rgt_dec (Rabs x) 1); [assumption |].
  destruct (mu =? 0); [assumption |].
  apply Memoize_call_inv. exact Hinv.
Qed.

(** X18. Memoization does not change what [legendre] computes: a call keeps the
    cache of [odd_factorial] consistent, and on any two consistent caches
    it has the same outcome, on every input. *)
Theorem legendre_independent_of_cache (nu mu : Z) (x : R) (st1 st2 : Memoize Z Z) :
  Memoize_inv odd_factorial_fn st1 -> Memoize_inv odd_factorial_fn st2 ->
  (legendre nu mu x st1).1 = (legendre nu mu x st2).1
  /\ Memoize_inv odd_factorial_fn (legendre nu mu x st1).2.
Proof.
  intros H1 H2. split; [| apply legendre_inv; exact H1].
  destruct (legendre_outcome nu mu x st1) as (Ho1 & Ha1 & _).
  destruct (legendre_outcome nu mu x st2) as (Ho2 & Ha2 & _).
  destruct (Z_lt_dec mu 0) as [Hneg | Hnn]; [rewrite Ho1, Ho2 by lia; reflexivity |].
  destruct (Z_gt_dec mu nu) as [Hgt | Hle]; [rewrite Ho1, Ho2 by lia; reflexivity |].
  destruct (Rgt_dec (Rabs x) 1) as [Hx | Hx];
    [rewrite Ha1, Ha2 by (lia || assumption); reflexivity |].
  destruct (legendre_run nu mu x st1) as (o1 & Hc1 & ->); [lia | lra |].
  destruct (legendre_run nu mu x st2) as (o2 & Hc2 & ->); [lia | lra |].
  do 2 f_equal. unfold seed_value.
  destruct (Z.eqb_spec mu 0) as [_ | Hne]; [reflexivity |].
  specialize (Hc1 Hne). specialize (Hc2 Hne).
  rewrite (Memoize_call_value _ _ _ H1) in Hc1.
  rewrite (Memoize_call_value _ _ _ H2) in Hc2. congruence.
Qed.

Lemma legendre_independent_of_cache_witness :
  (legendre 3 1 (1 / 2) odd_factorial).1
  = (legendre 3 1 (1 / 2) (Memoize_call odd_factorial 5).2).1
  /\ Memoize_inv odd_factorial_fn (legendre 3 1 (1 / 2) odd_factorial).2.
Proof.
  apply (legendre_independent_of_cache 3 1 (1 / 2) odd_factorial
           (Memoize_call odd_factorial 5).2);
    [apply Memoize_init_inv | apply Memoize_call_inv, Memoize_init_inv].
Defined.


Lemma p_nu_at_neg mu x p0 d :
  p_nu_at mu (- x) p0 d = ((-1) ^ d * p_nu_at mu x p0 d)%R
  /\ p_nu_at mu (- x) p0 (S d) = ((-1) ^ S d * p_nu_at mu x p0 (S d))%R.
Proof.
  induction d as [|d [IH0 IH1]]; [split; simpl; ring |].
  split; [exact IH1 |].
  rewrite !p_nu_at_step, IH0, IH1. unfold Rdiv. simpl. ring.
Qed.



Lemma p_nu_at_order0_at_1 d :
  p_nu_at 0 1 1 d = 1%R /\ p_nu_at 0 1 1 (S d) = 1%R.
Proof.
  induction d as [|d [IH0 IH1]];
    [split; [reflexivity | cbn [p_nu_at]; change (2 * 0 + 1) with 1; ring] |].
  split; [exact IH1 |].
  rewrite p_nu_at_step, IH0, IH1.
  replace (2 * (0 + Z.of_nat (S (S d))) - 1) with (2 * Z.of_nat (S (S d)) - 1) by lia.
  replace (0 + Z.of_nat (S (S d)) + 0 - 1) with (Z.of_nat (S (S d)) - 1) by lia.
  replace (0 + Z.of_nat (S (S d)) - 0) with (Z.of_nat (S (S d))) by lia.
  rewrite !minus_IZR, mult_IZR.
  assert (Hn : IZR (Z.of_nat (S (S d))) <> 0%R) by (apply not_0_IZR; lia).
  field. exact Hn.
Qed.

(** X20. At the end points and order 0: [legendre(nu, 0, 1)] is 1 and
    [legendre(nu, 0, -1)] is [(-1)^nu], for every degree [nu >= 0]. *)
Theorem legendre_order0_endpoints (nu : Z) (st : Memoize Z Z) :
  0 <= nu ->
  (legendre nu 0 1 st).1 = Ok 1%R
  /\ (legendre nu 0 (-1) st).1 = Ok ((-1) ^ Z.to_nat nu)%R.
Proof.
  intros Hnu.
  assert (H1 : (legendre nu 0 1 st).1 = Ok 1%R).
  { destruct (legendre_run nu 0 1 st) as (o & _ & ->);
      [lia | rewrite Rabs_R1; lra |].
    f_equal. apply p_nu_at_order0_at_1. }
  split; [exact H1 |].
  destruct (legendre_run nu 0 (-1) st) as (o & _ & ->);
    [lia | unfold Rabs; destruct (Rcase_abs (-1)); lra |].
  f_equal. change (seed_value 0 (-1) o) with 1%R.
  change (p_nu_at 0 (-1) 1 (Z.to_nat (nu - 0)))
    with (p_nu_at 0 (- (1)) 1 (Z.to_nat (nu - 0))).
  rewrite (proj1 (p_nu_at_neg 0 1 1 _)), (proj1 (p_nu_at_order0_at_1 _)).
  rewrite Z.sub_0_r, Rmult_1_r. reflexivity.
Qed.

Lemma legendre_order0_endpoints_witness :
  (legendre 4 0 1 odd_factorial).1 = Ok 1%R
  /\ (legendre 4 0 (-1) odd_factorial).1 = Ok ((-1) ^ Z.to_nat 4)%R.
Proof. apply (legendre_order0_endpoints 4 odd_factorial). lia. Defined.



End LegendreMore.

(** ** The first Legendre functions *)


Section LegendreTable.
Local Open Scope Z_scope.


End LegendreTable.


(** ** More on the coordinate transform *)

Section TransformMore.
  Context {E : Type} `{Numeric E}.
  Implicit Types (A B : CoordsVector E) (M : ndarray E) (a b : ndarray E)
    (s t r : list nat).

Lemma nth_fmap_seq {X} (g : nat -> X) n p d :
  p < n -> nth p (g <$> seq 0 n) d = g p.
Proof.
  intros Hp. apply nth_lookup_Some.
  rewrite list_lookup_fmap, lookup_seq_lt by exact Hp. reflexivity.
Qed.

Lemma fmap_seq_nth (l : list E) n d g :
  length l = n -> (forall p, p < n -> nth p l d = g p) -> l = g <$> seq 0 n.
Proof.
  intros Hlen Hnth. rewrite <- (fmap_nth_seq l d), Hlen.
  apply fmap_seq_ext. exact Hnth.
Qed.

(** The closed form of the transform on well-formed arrays of one shape. *)
Lemma transform_coordinates_closed A M s :
  shape (x A) = s -> shape (y A) = s -> shape (z A) = s ->
  well_formed (x A) -> well_formed (y A) -> well_formed (z A) ->
  matrix4x4 M ->
  transform_coordinates A M = Ok (affine_image A M s).
Proof.
  intros Hx Hy Hz Wx Wy Wz HM. unfold transform_coordinates.
  rewrite !affine_row_run by (assumption || congruence || lia).
  cbn [mbind result_mbind result_bind mret result_ret]. unfold affine_image.
  assert (Hlx : length (data (x A)) = prod s) by (rewrite <- Hx; exact Wx).
  assert (Hly : length (data (y A)) = prod s) by (rewrite <- Hy; exact Wy).
  assert (Hlz : length (data (z A)) = prod s) by (rewrite <- Hz; exact Wz).
  rewrite Hx. do 2 f_equal; f_equal;
    (apply (fmap_seq_nth _ _ num_zero);
     [ rewrite length_fmap, !length_zip_with, !length_fmap; lia
     | intros p Hp; rewrite affine_row_at by lia;
       destruct A as [a1 a2 a3]; reflexivity ]).
Qed.


(** X1. The identity matrix changes nothing, for a dtype in which zero absorbs
    products and is neutral for sums. *)
Theorem transform_coordinates_identity A s :
  (forall e : E, num_mul e num_zero = num_zero) ->
  (forall e : E, num_add e num_zero = e) ->
  (forall e : E, num_add num_zero e = e) ->
  shape (x A) = s -> shape (y A) = s -> shape (z A) = s ->
  well_formed (x A) -> well_formed (y A) -> well_formed (z A) ->
  transform_coordinates A identity_matrix = Ok A.
Proof.
  intros Hmul0 Hadd0 Hadd0' Hx Hy Hz Wx Wy Wz.
  rewrite (transform_coordinates_closed A identity_matrix s)
    by (assumption || (split; reflexivity)).
  f_equal. destruct A as [[sx dx] [sy dy] [sz dz]].
  unfold well_formed, size in *. simpl in *. subst sx sy sz.
  unfold affine_image. cbn [x y z shape data].
  f_equal; f_equal; symmetry;
    (apply (fmap_seq_nth _ _ num_zero); [assumption |]);
    intros p Hp; unfold spec_affine_at, entry; cbn [x y z data identity_matrix nth
      Nat.add Nat.mul];
    rewrite ?num_mul_one, ?Hmul0, ?Hadd0, ?Hadd0'; reflexivity.
Qed.
End TransformMore.

Lemma transform_coordinates_identity_witness :
  transform_coordinates sample_coords identity_matrix = Ok sample_coords.
Proof.
  apply (transform_coordinates_identity sample_coords [2]);
    try reflexivity; intros e; simpl; lia.
Defined.

Section TransformCompose.
  Implicit Types (A B : CoordsVector R) (M : ndarray R).


End TransformCompose.


(** ** The inverse transform *)

Section TransformInverse.
  Implicit Types (A B : CoordsVector R) (M : ndarray R).

End TransformInverse.


(** ** Shapes and bounds of the coordinate transform *)

Section BroadcastFacts.
  Context {A : Type} `{Numeric A}.
  Implicit Types (a b : ndarray A) (s t r : list nat).

Lemma broadcast_dim_outcome d e :
  match broadcast_dim d e with
  | Ok r => (d = r \/ d = 1) /\ (e = r \/ e = 1)
  | Raise err => err = broadcast_error
  end.
Proof.
  unfold broadcast_dim.
  destruct (Nat.eqb_spec d e); [lia |].
  destruct (Nat.eqb_spec d 1); [lia |].
  destruct (Nat.eqb_spec e 1); [lia | reflexivity].
Qed.

Lemma broadcast_dims_outcome s : forall t,
  length s = length t ->
  match broadcast_dims s t with
  | Ok r => stretches s r = true /\ stretches t r = true
  | Raise err => err = broadcast_error
  end.
Proof.
  induction s as [|d s IH]; intros [|e t] Hlen; try discriminate.
  - split; reflexivity.
  - simpl. pose proof (broadcast_dim_outcome d e) as Hd.
    destruct (broadcast_dim d e) as [r0|err]; [| exact Hd]. simpl.
    specialize (IH t ltac:(simpl in Hlen; lia)).
    destruct (broadcast_dims s t) as [r|err]; [| exact IH]. simpl.
    destruct IH as [Hs Ht]. rewrite stretches_Forall2 in Hs, Ht.
    rewrite !stretches_Forall2. destruct Hd as [Hd He].
    split; constructor; assumption.
Qed.

Lemma length_pad_shape n s : length s <= n -> length (pad_shape n s) = n.
Proof.
  intros Hn. unfold pad_shape. rewrite length_app, length_replicate. lia.
Qed.

(** The shape two arrays broadcast to stretches both, aligned at the last
    axis; otherwise the error is the one of a shape mismatch. *)
Lemma broadcast_shapes_outcome s t :
  match broadcast_shapes s t with
  | Ok r => length r = length s `max` length t
            /\ stretches (pad_shape (length r) s) r = true
            /\ stretches (pad_shape (length r) t) r = true
  | Raise err => err = broadcast_error
  end.
Proof.
  unfold broadcast_shapes.
  pose proof (broadcast_dims_outcome
                (pad_shape (length s `max` length t) s)
                (pad_shape (length s `max` length t) t)) as Hd.
  rewrite !length_pad_shape in Hd by lia. specialize (Hd eq_refl).
  destruct (broadcast_dims _ _) as [r|err]; [| exact Hd].
  destruct Hd as [Hs Ht].
  assert (Hlen : length r = length s `max` length t).
  { apply stretches_length in Hs. rewrite length_pad_shape in Hs by lia.
    symmetry. exact Hs. }
  rewrite Hlen. auto.
Qed.

(** An element-wise operation succeeds exactly when the shapes broadcast,
    and its result has the broadcast shape. *)
Lemma elementwise_outcome op a b :
  match broadcast_shapes (shape a) (shape b) with
  | Ok r => exists d, elementwise op a b = Ok (mkArray r d) /\ length d = prod r
  | Raise err => err = broadcast_error /\ elementwise op a b = Raise broadcast_error
  end.
Proof.
  unfold elementwise.
  pose proof (broadcast_shapes_outcome (shape a) (shape b)) as Hb.
  destruct (broadcast_shapes (shape a) (shape b)) as [r|err].
  - destruct Hb as (_ & Ha & Hb). simpl. unfold broadcast_to.
    rewrite Ha, Hb. simpl. eexists. split; [reflexivity |].
    rewrite length_zip_with, !length_fmap, !length_seq. lia.
  - subst err. split; reflexivity.
Qed.

Lemma elementwise_scalar_outcome op a v :
  exists d, elementwise op a (scalar v) = Ok (mkArray (shape a) d)
            /\ length d = prod (shape a).
Proof.
  pose proof (elementwise_outcome op a (scalar v)) as Ho.
  change (shape (scalar v)) with (@nil nat) in Ho.
  rewrite broadcast_shapes_scalar in Ho. exact Ho.
Qed.
End BroadcastFacts.

Section TransformBounds.
  Context {E : Type} `{Numeric E}.
  Implicit Types (A B : CoordsVector E) (M : ndarray E) (s t r : list nat).

Lemma affine_row_outcome (A1 A2 A3 : ndarray E) M i :
  matrix4x4 M -> i < 4 ->
  match joint_shape (shape A1) (shape A2) (shape A3) with
  | Ok F => exists d, affine_row A1 A2 A3 M i = Ok (mkArray F d)
                      /\ length d = prod F
  | Raise err => err = broadcast_error
                 /\ affine_row A1 A2 A3 M i = Raise broadcast_error
  end.
Proof.
  intros HM Hi. unfold affine_row, joint_shape, multiply, add.
  rewrite !getitem2_entry by (assumption || lia). simpl.
  destruct (elementwise_scalar_outcome num_mul A1 (entry M i 0)) as (d0 & -> & _).
  simpl.
  destruct (elementwise_scalar_outcome num_mul A2 (entry M i 1)) as (d1 & -> & _).
  simpl.
  pose proof (elementwise_outcome num_add (mkArray (shape A1) d0)
                (mkArray (shape A2) d1)) as H1.
  cbn [shape] in H1.
  destruct (broadcast_shapes (shape A1) (shape A2)) as [r1|err]; simpl.
  2:{ destruct H1 as [-> ->]. split; reflexivity. }
  destruct H1 as (e1 & -> & _). simpl.
  destruct (elementwise_scalar_outcome num_mul A3 (entry M i 2)) as (d2 & -> & _).
  simpl.
  pose proof (elementwise_outcome num_add (mkArray r1 e1)
                (mkArray (shape A3) d2)) as H2.
  cbn [shape] in H2.
  destruct (broadcast_shapes r1 (shape A3)) as [F|err]; simpl.
  2:{ destruct H2 as [-> ->]. split; reflexivity. }
  destruct H2 as (e2 & -> & _). simpl.
  exact (elementwise_scalar_outcome num_add (mkArray F e2) (entry M i 3)).
Qed.

(** X4. The coordinate arrays need not have one shape: the transform succeeds
    exactly when the three shapes broadcast, every result array has the
    shape they broadcast to, and a mismatch is numpy's [ValueError]. *)
Theorem transform_coordinates_broadcasts A M :
  matrix4x4 M ->
  match joint_shape (shape (x A)) (shape (y A)) (shape (z A)) with
  | Ok F => exists B, transform_coordinates A M = Ok B
                      /\ forall i, i < 3 ->
                           shape (axis B i) = F /\ well_formed (axis B i)
  | Raise _ => transform_coordinates A M = Raise broadcast_error
  end.
Proof.
  intros HM. unfold transform_coordinates.
  pose proof (affine_row_outcome (x A) (y A) (z A) M 0 HM ltac:(lia)) as H0.
  pose proof (affine_row_outcome (x A) (y A) (z A) M 1 HM ltac:(lia)) as H1.
  pose proof (affine_row_outcome (x A) (y A) (z A) M 2 HM ltac:(lia)) as H2.
  destruct (joint_shape _ _ _) as [F|err].
  - destruct H0 as (d0 & -> & L0), H1 as (d1 & -> & L1), H2 as (d2 & -> & L2).
    simpl. eexists. split; [reflexivity |].
    intros i Hi. destruct i as [|[|[|i]]]; [| | | lia];
      (split; [reflexivity | assumption]).
  - destruct H0 as [_ ->]. reflexivity.
Qed.

Lemma getitem2_inside M rows cols i j :
  shape M = [rows; cols] -> length (data M) = rows * cols ->
  i < rows -> j < cols -> exists v, getitem2 M i j = Ok v.
Proof.
  intros Hs Hl Hi Hj. unfold getitem2. rewrite Hs.
  destruct (Nat.ltb_spec i rows); [| lia].
  destruct (Nat.ltb_spec j cols); [| lia]. simpl.
  destruct (lookup_lt_is_Some_2 (data M) (i * cols + j)) as [v Hv]; [nia |].
  rewrite Hv. eauto.
Qed.

Lemma getitem2_outside M rows cols i j :
  shape M = [rows; cols] -> rows <= i \/ cols <= j ->
  getitem2 M i j = Raise (IndexError "index out of bounds").
Proof.
  intros Hs Hij. unfold getitem2. rewrite Hs.
  destruct (Nat.ltb_spec i rows), (Nat.ltb_spec j cols);
    simpl; try reflexivity; lia.
Qed.

Lemma affine_row_bounds (A1 A2 A3 : ndarray E) M rows cols i :
  well_formed A1 -> well_formed A2 -> well_formed A3 ->
  shape A2 = shape A1 -> shape A3 = shape A1 ->
  shape M = [rows; cols] -> length (data M) = rows * cols ->
  if (i <? rows) && (4 <=? cols)
  then exists b, affine_row A1 A2 A3 M i = Ok b
                 /\ shape b = shape A1 /\ well_formed b
  else affine_row A1 A2 A3 M i = Raise (IndexError "index out of bounds").
Proof.
  intros W1 W2 W3 S2 S3 HsM HlM.
  assert (Hout : forall j, rows <= i \/ cols <= j ->
            getitem2 M i j = Raise (IndexError "index out of bounds")).
  { intros j. apply (getitem2_outside M rows cols); exact HsM. }
  assert (Hin : forall j, i < rows -> j < cols -> exists v, getitem2 M i j = Ok v).
  { intros j. apply (getitem2_inside M rows cols); assumption. }
  assert (W01 : forall (d1 d2 : list E) (op : E -> E -> E),
            length d1 = prod (shape A1) -> length d2 = prod (shape A1) ->
            elementwise op (mkArray (shape A1) d1) (mkArray (shape A1) d2)
            = Ok (mkArray (shape A1) (zip_with op d1 d2))).
  { intros d1 d2 op L1 L2. apply (elementwise_same op (mkArray _ d1) (mkArray _ d2));
      [exact L1 | exact L2 | reflexivity]. }
  assert (L1 : forall g : E -> E, length (g <$> data A1) = prod (shape A1)).
  { intros g. rewrite length_fmap. exact W1. }
  assert (L2 : forall g : E -> E, length (g <$> data A2) = prod (shape A1)).
  { intros g. rewrite length_fmap, <- S2. exact W2. }
  assert (L3 : forall g : E -> E, length (g <$> data A3) = prod (shape A1)).
  { intros g. rewrite length_fmap, <- S3. exact W3. }
  unfold affine_row, multiply, add.
  destruct (Nat.ltb_spec i rows) as [Hi|Hi]; cbn [andb].
  2:{ rewrite (Hout 0) by lia. reflexivity. }
  destruct (Nat.leb_spec 4 cols) as [C4|C4].
  - destruct (Hin 0 Hi ltac:(lia)) as [m0 ->].
    destruct (Hin 1 Hi ltac:(lia)) as [m1 ->].
    destruct (Hin 2 Hi ltac:(lia)) as [m2 ->].
    destruct (Hin 3 Hi ltac:(lia)) as [m3 ->].
    cbn [mbind result_mbind result_bind].
    rewrite !elementwise_scalar by assumption.
    cbn [mbind result_mbind result_bind].
    rewrite S2, S3, W01 by apply L1 || apply L2.
    cbn [mbind result_mbind result_bind].
    rewrite W01 by (rewrite ?length_zip_with, ?L1, ?L2, ?L3; lia).
    cbn [mbind result_mbind result_bind].
    rewrite elementwise_scalar
      by (unfold well_formed, size; cbn [shape data];
          rewrite ?length_zip_with, ?L1, ?L2, ?L3; lia).
    eexists. split; [reflexivity |]. split; [reflexivity |].
    unfold well_formed, size. cbn [shape data].
    rewrite length_fmap, ?length_zip_with, ?L1, ?L2, ?L3. lia.
  - destruct (le_lt_dec cols 0) as [Hc|Hc].
    { rewrite (Hout 0) by lia. reflexivity. }
    destruct (Hin 0 Hi Hc) as [m0 ->].
    cbn [mbind result_mbind result_bind].
    rewrite elementwise_scalar by exact W1.
    cbn [mbind result_mbind result_bind].
    destruct (le_lt_dec cols 1) as [Hc1|Hc1].
    { rewrite (Hout 1) by lia. reflexivity. }
    destruct (Hin 1 Hi Hc1) as [m1 ->].
    cbn [mbind result_mbind result_bind].
    rewrite elementwise_scalar by exact W2.
    cbn [mbind result_mbind result_bind].
    rewrite S2, W01 by apply L1 || apply L2.
    cbn [mbind result_mbind result_bind].
    destruct (le_lt_dec cols 2) as [Hc2|Hc2].
    { rewrite (Hout 2) by lia. reflexivity. }
    destruct (Hin 2 Hi Hc2) as [m2 ->].
    cbn [mbind result_mbind result_bind].
    rewrite elementwise_scalar by exact W3.
    cbn [mbind result_mbind result_bind].
    rewrite S3, W01 by (rewrite ?length_zip_with, ?L1, ?L2, ?L3; lia).
    cbn [mbind result_mbind result_bind].
    rewrite (Hout 3) by lia. reflexivity.
Qed.

(** X5. The matrix need not be 4x4: every two-dimensional matrix with at least
    3 rows and 4 columns is accepted (a 3x4 matrix, say), and every smaller
    one raises [IndexError]. *)
Theorem transform_coordinates_matrix_bounds A M rows cols s :
  shape (x A) = s -> shape (y A) = s -> shape (z A) = s ->
  well_formed (x A) -> well_formed (y A) -> well_formed (z A) ->
  shape M = [rows; cols] -> length (data M) = rows * cols ->
  if (3 <=? rows) && (4 <=? cols)
  then exists B, transform_coordinates A M = Ok B
                 /\ forall i, i < 3 ->
                      shape (axis B i) = s /\ well_formed (axis B i)
  else exists msg, transform_coordinates A M = Raise (IndexError msg).
Proof.
  intros Hx Hy Hz Wx Wy Wz HsM HlM. unfold transform_coordinates.
  pose proof (fun i => affine_row_bounds (x A) (y A) (z A) M rows cols i
                         Wx Wy Wz ltac:(congruence) ltac:(congruence) HsM HlM)
    as Hrow.
  pose proof (Hrow 0) as H0. pose proof (Hrow 1) as H1. pose proof (Hrow 2) as H2.
  clear Hrow.
  destruct (Nat.leb_spec 4 cols) as [Hc|Hc];
    rewrite ?andb_true_r, ?andb_false_r in *.
  2:{ rewrite H0. cbn [andb]. exists "index out of bounds"%string. reflexivity. }
  destruct (Nat.ltb_spec 0 rows) as [R0|R0].
  2:{ rewrite H0. destruct (Nat.leb_spec 3 rows); [lia |]. cbv iota. exists "index out of bounds"%string. reflexivity. }
  destruct H0 as (B1 & -> & S1 & W1). cbn [mbind result_mbind result_bind].
  destruct (Nat.ltb_spec 1 rows) as [R1|R1].
  2:{ rewrite H1. destruct (Nat.leb_spec 3 rows); [lia |]. cbv iota. exists "index out of bounds"%string. reflexivity. }
  destruct H1 as (B2 & -> & S2 & W2). cbn [mbind result_mbind result_bind].
  destruct (Nat.ltb_spec 2 rows) as [R2|R2].
  2:{ rewrite H2. destruct (Nat.leb_spec 3 rows); [lia |]. cbv iota. exists "index out of bounds"%string. reflexivity. }
  destruct H2 as (B3 & -> & S3 & W3). cbn [mbind result_mbind result_bind].
  destruct (Nat.leb_spec 3 rows); [| lia].
  eexists. split; [reflexivity |].
  intros i Hi. destruct i as [|[|[|i]]]; [| | | lia]; simpl;
    (split; [congruence | assumption]).
Qed.
End TransformBounds.

Lemma transform_coordinates_broadcasts_witness :
  exists B,
    transform_coordinates
      (mkCoordsVector (mkArray [2; 1] [1; 2]%Z) (mkArray [1; 3] [3; 4; 5]%Z)
         (mkArray [] [7]%Z))
      sample_matrix = Ok B
    /\ forall i, i < 3 -> shape (axis B i) = [2; 3] /\ well_formed (axis B i).
Proof.
  apply (transform_coordinates_broadcasts
           (mkCoordsVector (mkArray [2; 1] [1; 2]%Z) (mkArray [1; 3] [3; 4; 5]%Z)
              (mkArray [] [7]%Z)) sample_matrix).
  split; reflexivity.
Defined.

Lemma transform_coordinates_matrix_bounds_witness :
  exists B,
    transform_coordinates sample_coords
      (mkArray [3; 4] [1; 0; 0; 10; 0; 1; 0; 20; 0; 0; 1; 30]%Z) = Ok B
    /\ forall i, i < 3 -> shape (axis B i) = [2] /\ well_formed (axis B i).
Proof.
  apply (transform_coordinates_matrix_bounds sample_coords
           (mkArray [3; 4] [1; 0; 0; 10; 0; 1; 0; 20; 0; 0; 1; 30]%Z) 3 4 [2]);
    reflexivity.
Defined.

(** ** The elements of the grid *)

Section GridElements.
  Context {A : Type} `{Numeric A}.
  Implicit Types (a o : ndarray A) (xi args : list (ndarray A))
    (F t idx : list nat) (indexing : string).

Lemma reshaped_lookup N args : forall j k,
  reshaped N j args !! k
  = (fun a => mkArray (onehot N (j + k) (size a)) (data a)) <$> args !! k.
Proof.
  induction args as [|a args IH]; intros j k; [reflexivity |].
  destruct k as [|k]; simpl.
  - rewrite Nat.add_0_r. reflexivity.
  - rewrite IH. replace (S j + k) with (j + S k) by lia. reflexivity.
Qed.

Lemma sparse_outputs_lookup indexing args k :
  2 <= length args ->
  sparse_outputs indexing args !! k
  = (fun a => mkArray (onehot (length args) (axis_of indexing k) (size a)) (data a))
      <$> args !! k.
Proof.
  intros Hlen. destruct args as [|a0 [|a1 rest]]; simpl in Hlen; try lia.
  unfold sparse_outputs, axis_of.
  destruct (String.eqb indexing "xy").
  - destruct k as [|[|k]]; try reflexivity.
    change ((mkArray (onehot (length (a0 :: a1 :: rest)) 1 (size a0)) (data a0)
             :: mkArray (onehot (length (a0 :: a1 :: rest)) 0 (size a1)) (data a1)
             :: reshaped (length (a0 :: a1 :: rest)) 2 rest) !! S (S k))
      with (reshaped (length (a0 :: a1 :: rest)) 2 rest !! k).
    rewrite reshaped_lookup. reflexivity.
  - rewrite reshaped_lookup. reflexivity.
Qed.









Lemma data_promote_1d a : data (promote_1d a) = data a.
Proof. unfold promote_1d. destruct (ndim a =? 0); reflexivity. Qed.

(** X12. What the sparse grid holds: output [k] has the elements of input [k],
    unchanged and in the same order, under the shape that has the size of
    the input on the axis of that output and 1 on every other axis. *)
Theorem meshgrid_sparse_elements xi kw :
  2 <= length xi -> default false (kw_sparse kw) = true ->
  exists outs,
    meshgrid xi kw = Ok (Arrays outs)
    /\ length outs = length xi
    /\ forall k a, xi !! k = Some a ->
         outs !! k
         = Some (mkArray
                   (onehot (length xi)
                      (axis_of (default "xy"%string (kw_indexing kw)) k) (size a))
                   (data a)).
Proof.
  intros Hlen Hsp. rewrite meshgrid_run by exact Hlen. cbv zeta. rewrite Hsp.
  eexists. split; [reflexivity |]. split.
  { rewrite length_sparse_outputs, length_fmap. reflexivity. }
  intros k a Hk.
  rewrite sparse_outputs_lookup by (rewrite length_fmap; exact Hlen).
  rewrite list_lookup_fmap, Hk, length_fmap. simpl.
  rewrite size_promote_1d, data_promote_1d. reflexivity.
Qed.


(** X14. The [indexing] keyword is not validated: every value other than
    ['xy'] gives what [ndgrid] gives. *)
Theorem meshgrid_indexing_not_validated xi indexing (ix' : option string)
    (sp cp : option bool) :
  indexing <> "xy"%string ->
  meshgrid xi (mkKwargs (Some indexing) sp cp) = ndgrid xi (mkKwargs ix' sp cp).
Proof.
  intros Hix. apply String.eqb_neq in Hix.
  unfold ndgrid, meshgrid. cbn [kw_indexing kw_sparse kw_copy].
  destruct (atleast_1d xi) as [args|args]; [reflexivity |].
  change (default "xy"%string (Some indexing)) with indexing.
  change (default "xy"%string (Some "ij"%string)) with "ij"%string.
  rewrite Hix. reflexivity.
Qed.
End GridElements.

Lemma meshgrid_indexing_not_validated_witness :
  meshgrid [mkArray [2] [1; 2]%Z; mkArray [3] [3; 4; 5]%Z]
    (mkKwargs (Some "yx"%string) None None)
  = ndgrid [mkArray [2] [1; 2]%Z; mkArray [3] [3; 4; 5]%Z] no_kwargs.
Proof.
  apply (meshgrid_indexing_not_validated
           [mkArray [2] [1; 2]%Z; mkArray [3] [3; 4; 5]%Z] "yx" None None None).
  discriminate.
Defined.


Lemma meshgrid_sparse_elements_witness :
  exists outs,
    meshgrid [mkArray [2] [1; 2]%Z; mkArray [3] [3; 4; 5]%Z]
      (mkKwargs None (Some true) None)
    = Ok (Arrays outs)
    /\ length outs = 2
    /\ forall k a,
         [mkArray [2] [1; 2]%Z; mkArray [3] [3; 4; 5]%Z] !! k = Some a ->
         outs !! k = Some (mkArray (onehot 2 (axis_of "xy" k) (size a)) (data a)).
Proof.
  refine (meshgrid_sparse_elements
            [mkArray [2] [1; 2]%Z; mkArray [3] [3; 4; 5]%Z]
            (mkKwargs None (Some true) None) _ _);
    [simpl; lia | reflexivity].
Defined.

(** ** The grid and the transform together *)

Section GridTransform.
  Context {E : Type} `{Numeric E}.
  Implicit Types (a o : ndarray E) (M : ndarray E) (F idx : list nat).



End GridTransform.


(** ** Broadcasting and the transform *)

Section BroadcastGet.
  Context {A : Type} `{Numeric A}.
  Implicit Types (a b c : ndarray A) (s t r F idx : list nat).

Lemma zip_with_fmap_seq {X} (op : A -> A -> X) (g h : nat -> A) n :
  zip_with op (g <$> seq 0 n) (h <$> seq 0 n) = (fun j => op (g j) (h j)) <$> seq 0 n.
Proof.
  generalize 0. induction n as [|n IH]; intros k; [reflexivity |].
  simpl. f_equal. apply IH.
Qed.

(** An index of the stretched shape, read on the original shape. *)
Lemma broadcast_index_stretches t F idx :
  stretches t F = true -> valid_index F idx ->
  valid_index t (broadcast_index t idx).
Proof.
  rewrite stretches_Forall2. unfold valid_index, broadcast_index.
  intros Hs. revert idx. induction Hs as [|d e t F Hde Hs IH]; intros idx Hv.
  - inversion Hv; subst. constructor.
  - inversion Hv as [|i e' idx' F' Hie Hv']; subst. simpl.
    constructor; [| apply IH; exact Hv'].
    destruct (Nat.eqb_spec d 1); lia.
Qed.

Lemma broadcast_index_twice t r idx :
  stretches t r = true -> length idx = length r ->
  broadcast_index t (broadcast_index r idx) = broadcast_index t idx.
Proof.
  rewrite stretches_Forall2. unfold broadcast_index.
  intros Hs. revert idx. induction Hs as [|d e t r Hde Hs IH]; intros idx Hlen.
  - reflexivity.
  - destruct idx as [|i idx]; [discriminate |]. simpl in *. f_equal.
    + destruct (Nat.eqb_spec d 1); [reflexivity |].
      destruct (Nat.eqb_spec e 1); [lia | reflexivity].
    + apply IH. lia.
Qed.

Lemma stretches_trans t r F :
  stretches t r = true -> stretches r F = true -> stretches t F = true.
Proof.
  rewrite !stretches_Forall2. intros Htr. revert F.
  induction Htr as [|d e t r Hde Htr IH]; intros F HrF.
  - inversion HrF; subst. constructor.
  - inversion HrF as [|e' f r' F' Hef HrF']; subst.
    constructor; [lia | apply IH; exact HrF'].
Qed.

(** Two arrays of one shape with the same element at every index are one
    array. *)
Lemma array_ext a b F :
  shape a = F -> shape b = F -> well_formed a -> well_formed b ->
  (forall idx, valid_index F idx -> get a idx = get b idx) ->
  a = b.
Proof.
  destruct a as [sa da], b as [sb db]. unfold well_formed, size, get. simpl.
  intros -> -> Wa Wb Hget. f_equal.
  apply (nth_ext _ _ num_zero num_zero); [congruence |].
  intros p Hp. rewrite Wa in Hp.
  specialize (Hget (unravel F p) (unravel_valid F p Hp)).
  rewrite ravel_unravel in Hget by exact Hp. exact Hget.
Qed.

(** The elements of an element-wise operation on two arrays with the same
    number of axes. *)
Lemma elementwise_get op a b r :
  length (shape a) = length (shape b) ->
  broadcast_shapes (shape a) (shape b) = Ok r ->
  exists c,
    elementwise op a b = Ok c
    /\ shape c = r /\ well_formed c
    /\ stretches (shape a) r = true /\ stretches (shape b) r = true
    /\ forall idx, valid_index r idx ->
         get c idx = op (get a (broadcast_index (shape a) idx))
                        (get b (broadcast_index (shape b) idx)).
Proof.
  intros Hlen Hr. unfold elementwise. rewrite Hr.
  pose proof (broadcast_shapes_outcome (shape a) (shape b)) as Ho.
  rewrite Hr in Ho. destruct Ho as (Hl & Sa & Sb).
  rewrite pad_shape_eq in Sa by lia. rewrite pad_shape_eq in Sb by lia.
  cbn [mbind result_mbind result_bind]. unfold broadcast_to.
  rewrite (pad_shape_eq (length r) (shape a)) by lia.
  rewrite (pad_shape_eq (length r) (shape b)) by lia.
  rewrite Sa, Sb. cbn [mbind result_mbind result_bind mret result_ret data].
  eexists. split; [reflexivity |]. split; [reflexivity |].
  rewrite zip_with_fmap_seq. split.
  { unfold well_formed, size. simpl. rewrite length_fmap, length_seq. reflexivity. }
  do 2 (split; [reflexivity || assumption |]).
  intros idx Hv. unfold get at 1. cbn [shape data].
  rewrite nth_fmap_seq by (apply ravel_lt; exact Hv).
  rewrite unravel_ravel by exact Hv. reflexivity.
Qed.

(** The elements of an array combined with a scalar. *)
Lemma elementwise_scalar_get op a v :
  exists c,
    elementwise op a (scalar v) = Ok c
    /\ shape c = shape a /\ well_formed c
    /\ forall idx, valid_index (shape a) idx -> get c idx = op (get a idx) v.
Proof.
  unfold elementwise. change (shape (scalar v)) with (@nil nat).
  rewrite broadcast_shapes_scalar. cbn [mbind result_mbind result_bind].
  rewrite broadcast_to_scalar. unfold broadcast_to.
  rewrite pad_shape_same, stretches_refl.
  cbn [mbind result_mbind result_bind mret result_ret data].
  eexists. split; [reflexivity |]. split; [reflexivity |].
  rewrite <- (fmap_const_seq v 0), zip_with_fmap_seq. split.
  { unfold well_formed, size. simpl. rewrite length_fmap, length_seq. reflexivity. }
  intros idx Hv. unfold get at 1. cbn [shape data].
  rewrite nth_fmap_seq by (apply ravel_lt; exact Hv).
  rewrite unravel_ravel by exact Hv.
  rewrite broadcast_index_valid by exact Hv. reflexivity.
Qed.
End BroadcastGet.

Section TransformBroadcast.
  Context {E : Type} `{Numeric E}.
  Implicit Types (A B : CoordsVector E) (M : ndarray E) (F idx : list nat).

(** One line of the transform on arrays of different shapes with the same
    number of axes: each array is read where the index falls on it. *)
Lemma affine_row_get (A1 A2 A3 : ndarray E) M i F :
  matrix4x4 M -> i < 4 ->
  length (shape A2) = length (shape A1) -> length (shape A3) = length (shape A1) ->
  joint_shape (shape A1) (shape A2) (shape A3) = Ok F ->
  exists b,
    affine_row A1 A2 A3 M i = Ok b
    /\ shape b = F /\ well_formed b
    /\ stretches (shape A1) F = true /\ stretches (shape A2) F = true
    /\ stretches (shape A3) F = true
    /\ forall idx, valid_index F idx ->
         get b idx
         = num_add
             (num_add
                (num_add
                   (num_mul (get A1 (broadcast_index (shape A1) idx)) (entry M i 0))
                   (num_mul (get A2 (broadcast_index (shape A2) idx)) (entry M i 1)))
                (num_mul (get A3 (broadcast_index (shape A3) idx)) (entry M i 2)))
             (entry M i 3).
Proof.
  intros HM Hi L2 L3 HF. unfold joint_shape in HF.
  destruct (broadcast_shapes (shape A1) (shape A2)) as [r1|] eqn:Hr1;
    [| discriminate].
  cbn [mbind result_mbind result_bind] in HF.
  unfold affine_row, multiply, add.
  rewrite !getitem2_entry by (assumption || lia).
  cbn [mbind result_mbind result_bind].
  destruct (elementwise_scalar_get num_mul A1 (entry M i 0))
    as (t0 & -> & St0 & Wt0 & Gt0).
  cbn [mbind result_mbind result_bind].
  destruct (elementwise_scalar_get num_mul A2 (entry M i 1))
    as (t1 & -> & St1 & Wt1 & Gt1).
  cbn [mbind result_mbind result_bind].
  destruct (elementwise_get num_add t0 t1 r1 ltac:(congruence)
              ltac:(rewrite St0, St1; exact Hr1))
    as (s1 & -> & Ss1 & Ws1 & S01 & S11 & Gs1).
  cbn [mbind result_mbind result_bind].
  destruct (elementwise_scalar_get num_mul A3 (entry M i 2))
    as (t2 & -> & St2 & Wt2 & Gt2).
  cbn [mbind result_mbind result_bind].
  assert (Lr1 : length r1 = length (shape A1)).
  { apply stretches_length in S01. rewrite St0 in S01. symmetry. exact S01. }
  destruct (elementwise_get num_add s1 t2 F ltac:(congruence)
              ltac:(rewrite Ss1, St2; exact HF))
    as (s2 & -> & Ss2 & Ws2 & S1F & S2F & Gs2).
  cbn [mbind result_mbind result_bind].
  destruct (elementwise_scalar_get num_add s2 (entry M i 3))
    as (b & -> & Sb & Wb & Gb).
  rewrite St0 in S01. rewrite St1 in S11. rewrite Ss1 in S1F. rewrite St2 in S2F.
  exists b. split; [reflexivity |]. split; [congruence |]. split; [exact Wb |].
  split; [exact (stretches_trans _ _ _ S01 S1F) |].
  split; [exact (stretches_trans _ _ _ S11 S1F) |].
  split; [exact S2F |].
  intros idx Hv. rewrite Ss2 in Gb.
  rewrite Gb, Gs2 by exact Hv. rewrite Ss1, St2.
  assert (Hv1 : valid_index r1 (broadcast_index r1 idx))
    by (apply (broadcast_index_stretches r1 F); assumption).
  rewrite Gs1 by exact Hv1. rewrite St0, St1.
  pose proof (valid_index_length F idx Hv) as Hli.
  pose proof (stretches_length _ _ S1F) as Hl1.
  rewrite !broadcast_index_twice by (assumption || lia).
  rewrite Gt0
    by (apply (broadcast_index_stretches _ F);
        [exact (stretches_trans _ _ _ S01 S1F) | exact Hv]).
  rewrite Gt1
    by (apply (broadcast_index_stretches _ F);
        [exact (stretches_trans _ _ _ S11 S1F) | exact Hv]).
  rewrite Gt2 by (apply (broadcast_index_stretches _ F); assumption).
  reflexivity.
Qed.

Lemma affine_row_broadcasted (A1 A2 A3 : ndarray E) M i F :
  matrix4x4 M -> i < 4 ->
  length (shape A2) = length (shape A1) -> length (shape A3) = length (shape A1) ->
  joint_shape (shape A1) (shape A2) (shape A3) = Ok F ->
  affine_row A1 A2 A3 M i
  = affine_row (broadcasted F A1) (broadcasted F A2) (broadcasted F A3) M i.
Proof.
  intros HM Hi L2 L3 HF.
  destruct (affine_row_get A1 A2 A3 M i F HM Hi L2 L3 HF)
    as (b & -> & Sb & Wb & S1 & S2 & S3 & Gb).
  assert (HFF : joint_shape F F F = Ok F).
  { unfold joint_shape. rewrite broadcast_shapes_same.
    cbn [mbind result_mbind result_bind]. apply broadcast_shapes_same. }
  destruct (affine_row_get (broadcasted F A1) (broadcasted F A2) (broadcasted F A3)
              M i F HM Hi eq_refl eq_refl HFF)
    as (b' & -> & Sb' & Wb' & _ & _ & _ & Gb').
  f_equal. apply (array_ext b b' F); try assumption.
  intros idx Hv. rewrite Gb, Gb' by exact Hv.
  cbn [shape broadcasted].
  rewrite (broadcast_index_valid F idx Hv).
  rewrite !get_broadcasted by exact Hv. reflexivity.
Qed.

(** X6. Broadcasting commutes with the transform: coordinate arrays of
    different shapes with the same number of axes give the arrays that
    the transform gives once each array is stretched to the joint shape. *)
Theorem transform_coordinates_broadcast_commutes A M F :
  matrix4x4 M ->
  length (shape (y A)) = length (shape (x A)) ->
  length (shape (z A)) = length (shape (x A)) ->
  joint_shape (shape (x A)) (shape (y A)) (shape (z A)) = Ok F ->
  transform_coordinates A M
  = transform_coordinates
      (mkCoordsVector (broadcasted F (x A)) (broadcasted F (y A))
         (broadcasted F (z A))) M.
Proof.
  intros HM L2 L3 HF. unfold transform_coordinates. cbn [x y z].
  rewrite !(affine_row_broadcasted (x A) (y A) (z A) M _ F)
    by (assumption || lia).
  reflexivity.
Qed.
End TransformBroadcast.

Section GridTransformSparse.
  Context {E : Type} `{Numeric E}.
  Implicit Types (a o : ndarray E) (M : ndarray E).


End GridTransformSparse.

Lemma transform_coordinates_broadcast_commutes_witness :
  transform_coordinates
    (mkCoordsVector (mkArray [2; 1] [1; 2]%Z) (mkArray [1; 3] [3; 4; 5]%Z)
       (mkArray [1; 1] [7]%Z))
    sample_matrix
  = transform_coordinates
      (mkCoordsVector (broadcasted [2; 3] (mkArray [2; 1] [1; 2]%Z))
         (broadcasted [2; 3] (mkArray [1; 3] [3; 4; 5]%Z))
         (broadcasted [2; 3] (mkArray [1; 1] [7]%Z)))
      sample_matrix.
Proof.
  apply (transform_coordinates_broadcast_commutes
           (mkCoordsVector (mkArray [2; 1] [1; 2]%Z) (mkArray [1; 3] [3; 4; 5]%Z)
              (mkArray [1; 1] [7]%Z)) sample_matrix [2; 3]);
    try reflexivity. split; reflexivity.
Defined.

